(** * torto: target loading, variable resolution and command execution

    A shallow embedding of [torto/torto.go].  Go strings are byte
    sequences and are modelled by [string]; a Go [map[string]T] is a
    [gmap string T], wrapped in [option] where the code can meet a nil
    map (the zero value left by the YAML decoder for an absent field). *)

From Stdlib Require Import Ascii String.
From stdpp Require Import base option list strings gmap fin_maps relations.

Open Scope string_scope.
Open Scope list_scope.
Open Scope nat_scope.

(** ** The Go [strings] package, on byte strings *)

Module strings.

(** [strings.HasPrefix(s, prefix)] *)
Fixpoint HasPrefix (s prefix : string) : bool :=
  match prefix, s with
  | EmptyString, _ => true
  | String _ _, EmptyString => false
  | String a p', String b s' =>
      if Ascii.eqb a b then HasPrefix s' p' else false
  end.

(** [strings.Contains(s, substr)]: [substr] starts at some offset of [s]. *)
Fixpoint Contains (s substr : string) : bool :=
  if HasPrefix s substr then true
  else match s with
       | EmptyString => false
       | String _ s' => Contains s' substr
       end.

(** The scan of [strings.Replace] for a non-empty [old]: at an offset
    where [old] starts, [new] is emitted and the next [length old] bytes
    are skipped ([skip] counts the bytes of the match still to pass);
    elsewhere the byte is copied. *)
Fixpoint replaceFrom (old new : string) (skip : nat) (s : string) : string :=
  match s with
  | EmptyString => EmptyString
  | String b s' =>
      match skip with
      | S n => replaceFrom old new n s'
      | O =>
          if HasPrefix s old
          then new +:+ replaceFrom old new (String.length old - 1) s'
          else String b (replaceFrom old new 0 s')
      end
  end.

(** [strings.ReplaceAll(s, old, new)].  The program only calls it with
    ["$" + k] for [old], which is never empty; for an empty [old], where Go
    puts [new] before every rune and at the end, runes are taken to be
    single bytes. *)
Definition ReplaceAll (s old new : string) : string :=
  match old with
  | EmptyString =>
      new +:+ (fix ins (t : string) : string :=
                 match t with
                 | EmptyString => EmptyString
                 | String b t' => String b (new +:+ ins t')
                 end) s
  | String _ _ => replaceFrom old new 0 s
  end.

(** [strings.Join(elems, sep)] *)
Fixpoint Join (elems : list string) (sep : string) : string :=
  match elems with
  | [] => EmptyString
  | [e] => e
  | e :: rest => e +:+ sep +:+ Join rest sep
  end.

(** [strings.HasSuffix(s, suffix)] *)
Definition HasSuffix (s suffix : string) : bool :=
  HasPrefix (String.rev s) (String.rev suffix).

End strings.

(** ** Results of Go calls *)

(** A Go [error] value: one made by [errors.New], or one handed back by a
    library ([os], [yaml], [os/exec]) and only passed along. *)
Inductive error : Type :=
  | errors_New (text : string)
  | library_error (text : string).

(** [err.Error()] *)
Definition Error (e : error) : string :=
  match e with errors_New t => t | library_error t => t end.

(** A Go call returning [(T, error)]: the value, or the non-nil error. *)
Inductive result (A : Type) : Type :=
  | Ok (a : A)
  | Err (e : error).
Arguments Ok {A} a.
Arguments Err {A} e.

(** A Go call either returns or panics at run time. *)
Inductive outcome (A : Type) : Type :=
  | Returns (a : A)
  | Panics (msg : string).
Arguments Returns {A} a.
Arguments Panics {A} msg.

#[export] Instance outcome_ret : MRet outcome := @Returns.
#[export] Instance outcome_bind : MBind outcome := λ A B f m,
  match m with
  | Returns a => f a
  | Panics msg => Panics msg
  end.

(** [l[i]] on a slice: a run-time panic outside its bounds. *)
Definition index (l : list string) (i : nat) : outcome string :=
  match l !! i with
  | Some x => Returns x
  | None => Panics "index out of range"
  end.

(** [m[k] = v]: a run-time panic when [m] is the nil map. *)
Definition mapassign {V : Type} (m : option (gmap string V)) (k : string) (v : V)
  : outcome (option (gmap string V)) :=
  match m with
  | Some m' => Returns (Some (<[k:=v]> m'))
  | None => Panics "assignment to entry in nil map"
  end.

(** [for k, v := range m]: the entries visited; none for the nil map. *)
Definition entries {V : Type} (m : option (gmap string V)) : list (string * V) :=
  match m with
  | Some m' => map_to_list m'
  | None => []
  end.

(** [v, ok := m[k]]: reading the nil map finds nothing. *)
Definition mapaccess {V : Type} (m : option (gmap string V)) (k : string) : option V :=
  match m with
  | Some m' => m' !! k
  | None => None
  end.

(** ** Data *)

Record Config : Type := mkConfig {
  target : string;
  argReplacements : gmap string string;
  debug : bool;
  force : bool;
  targetsFilePath : string;
  defaultTargetsFilePath : string;
  thisTarget : list string
}.

(** The struct [Targets]; its two fields are [Targets] and [Vars], each
    nil when the document does not have the key. *)
Record Targets : Type := mkTargets {
  T_Targets : option (gmap string (list string));
  T_Vars : option (gmap string string)
}.

Definition set_argReplacements (m : gmap string string) (c : Config) : Config :=
  mkConfig (target c) m (debug c) (force c)
           (targetsFilePath c) (defaultTargetsFilePath c) (thisTarget c).

Definition set_target (t : string) (c : Config) : Config :=
  mkConfig t (argReplacements c) (debug c) (force c)
           (targetsFilePath c) (defaultTargetsFilePath c) (thisTarget c).

Definition set_thisTarget (l : list string) (c : Config) : Config :=
  mkConfig (target c) (argReplacements c) (debug c) (force c)
           (targetsFilePath c) (defaultTargetsFilePath c) l.

Definition emptyTargets : Targets :=
  mkTargets (Some ∅) (Some ∅).

(** ** Variable resolution *)

(** Go leaves the order of [range] over a map unspecified, and it may
    differ from one loop to the next.  A [ranging] picks the order for
    every loop, told apart by the path of loop positions leading to it;
    it is lawful when each order lists exactly the entries of the map. *)
Definition ranging : Type :=
  list nat → gmap string string → list (string * string).

Definition lawful (range : ranging) : Prop :=
  ∀ path m, range path m ≡ₚ map_to_list m.

(** The body of the loop in [withResolvedArgs]; [recur i v] is the
    recursive call made at position [i] of the loop. *)
Fixpoint resolveEntries (recur : nat → string → option string) (i : nat)
    (kvs : list (string * string)) (argValue : string) : option string :=
  match kvs with
  | [] => Some argValue
  | (k, v) :: rest =>
      if strings.Contains argValue ("$" +:+ k)
      then match recur i v with
           | Some resolvedArgValue =>
               resolveEntries recur (S i) rest
                 (strings.ReplaceAll argValue ("$" +:+ k) resolvedArgValue)
           | None => None
           end
      else resolveEntries recur (S i) rest argValue
  end.

(** [withResolvedArgs(argValue, c)].  The Go function recurses without
    bound; [fuel] bounds the depth of nested calls and [None] says that the
    bound was reached. *)
Fixpoint withResolvedArgs (fuel : nat) (range : ranging) (path : list nat)
    (argValue : string) (c : Config) : option string :=
  match fuel with
  | O => None
  | S n =>
      resolveEntries (λ i v, withResolvedArgs n range (i :: path) v c)
        0 (range path (argReplacements c)) argValue
  end.

(** ** The argument pattern *)

Definition LF : ascii := ascii_of_nat 10.

(** The class [[a-zA-Z0-9]]. *)
Definition alnum (b : ascii) : bool :=
  let n := nat_of_ascii b in
  (((97 <=? n) && (n <=? 122)) || ((65 <=? n) && (n <=? 90))
   || ((48 <=? n) && (n <=? 57)))%nat.

(** The class [.] of Go's regexp without the [s] flag: any byte except
    the line feed. *)
Definition dot (b : ascii) : bool := negb (Ascii.eqb b LF).

Fixpoint all (p : ascii → bool) (s : string) : bool :=
  match s with
  | EmptyString => true
  | String b s' => p b && all p s'
  end.

(** The longest prefix of [s] in the class [p], and what follows it. *)
Fixpoint span (p : ascii → bool) (s : string) : string * string :=
  match s with
  | EmptyString => (EmptyString, EmptyString)
  | String b s' =>
      if p b then let '(pre, post) := span p s' in (String b pre, post)
      else (EmptyString, s)
  end.

(** What the pattern [^([a-zA-Z0-9]+)=(.+)$] denotes: the whole argument
    is a non-empty run of [alnum] bytes, an equals sign, and a non-empty
    run of [dot] bytes; the two runs are the capture groups. *)
Definition pattern (arg name value : string) : Prop :=
  arg = name +:+ "=" +:+ value
  ∧ name ≠ "" ∧ all alnum name = true
  ∧ value ≠ "" ∧ all dot value = true.

(** [r.FindStringSubmatch(arg)] for [r] compiled from that pattern: the
    slice of the whole match and the two groups, or nil.  The first group
    cannot hold an equals sign, so it is the longest [alnum] prefix. *)
Definition FindStringSubmatch (arg : string) : list string :=
  match span alnum arg with
  | (String b name', String e value) =>
      if Ascii.eqb e "=" && negb (String.eqb value "") && all dot value
      then [arg; String b name'; value]
      else []
  | _ => []
  end.

(** ** The program in its environment *)

(** One thing the program does that the outside can see. *)
Inductive event : Type :=
  | Printed (text : string)
      (* bytes written to standard output by [fmt] *)
  | Ran (executor command : string) (err : option error)
      (* [cmd.Run()] of [executor -c command] and what it returned *).

Section Program.

(** [os.Open] followed by [ioutil.ReadAll], whose error is dropped: the
    bytes of the file, or the error of opening it. *)
Variable os_Open : string → result string.
(** [yaml.Unmarshal] into a [Targets]. *)
Variable yaml_Unmarshal : string → result Targets.
(** [yaml.Marshal(&c)], its error dropped. *)
Variable yaml_Marshal : Config → string.
(** [os.Executable()] *)
Variable os_Executable : result string.
(** [runtime.GOOS] *)
Variable GOOS : string.
(** [cmd.String()] for [exec.Command(executor, "-c", command)]. *)
Variable cmd_String : string → string → string.
(** The machine the commands act on, and [cmd.Run()] with standard error
    captured: the machine afterwards, the captured bytes and the error. *)
Variable World : Type.
Variable cmd_Run : string → string → World → World * string * option error.

Definition getTargetsFile (filename : string) : result Targets :=
  match os_Open filename with
  | Err err => Err err
  | Ok byteValue =>
      match yaml_Unmarshal byteValue with
      | Err err => Err err
      | Ok targets => Ok targets
      end
  end.

(** [for k, v := range src { dst[k] = v }] over the entries [kvs]. *)
Fixpoint assignEach {V : Type} (dst : option (gmap string V))
    (kvs : list (string * V)) : outcome (option (gmap string V)) :=
  match kvs with
  | [] => Returns dst
  | (k, v) :: rest => dst' ← mapassign dst k v; assignEach dst' rest
  end.

(** The same loop into a map that is not nil, as [c.argReplacements]. *)
Definition overwrite {V : Type} (dst : gmap string V) (kvs : list (string * V))
  : gmap string V :=
  foldl (λ m kv, <[kv.1 := kv.2]> m) dst kvs.

(** [getTargets(c)]: the merged definitions and [c] as the call leaves
    it, or the error (then [c] is untouched). *)
Definition getTargets (c : Config) : outcome (result (Targets * Config)) :=
  let defaultLoad := getTargetsFile (defaultTargetsFilePath c) in
  let thisDirLoad := getTargetsFile (targetsFilePath c) in
  match defaultLoad, thisDirLoad with
  | Err _, Err thisDirErr => Returns (Err thisDirErr)
  | _, _ =>
      let defaultTargets :=
        match defaultLoad with Ok t => t | Err _ => emptyTargets end in
      let thisDirTargets :=
        match thisDirLoad with Ok t => t | Err _ => emptyTargets end in
      tgs ← assignEach (T_Targets defaultTargets) (entries (T_Targets thisDirTargets));
      vars ← assignEach (T_Vars defaultTargets) (entries (T_Vars thisDirTargets));
      Returns (Ok (mkTargets tgs vars,
                   set_argReplacements
                     (overwrite (argReplacements c) (entries vars)) c))
  end.

(** The loop of [getTargetNameAndRunArgs] over [programArgs]. *)
Fixpoint classify (programArgs : list string) (runArgs : gmap string string)
    (nonValueReplacementArgs : list string)
  : outcome (gmap string string * list string) :=
  match programArgs with
  | [] => Returns (runArgs, nonValueReplacementArgs)
  | arg :: rest =>
      let matches := FindStringSubmatch arg in
      if (0 <? length matches)%nat
      then
        m2 ← index matches 2;
        value ← (if negb (String.eqb m2 "") then Returns m2 else index matches 3);
        m1 ← index matches 1;
        classify rest (<[m1 := value]> runArgs) nonValueReplacementArgs
      else classify rest runArgs (nonValueReplacementArgs ++ [arg])
  end.

Definition getTargetNameAndRunArgs (programArgs : list string)
  : outcome (result (string * gmap string string)) :=
  '(runArgs, nonValueReplacementArgs) ← classify programArgs ∅ [];
  match nonValueReplacementArgs with
  | [] => Returns (Err (errors_New "target missing. check usage with -h"))
  | target :: others =>
      let cmdVar := strings.Join others " " in
      let runArgs := <["CMD" := cmdVar]> runArgs in
      match os_Executable with
      | Err err => Returns (Err err)
      | Ok path => Returns (Ok (target, <["BIN" := path]> runArgs))
      end
  end.

Definition emit (evs : list event)
    (r : option (World * list event * option error))
  : option (World * list event * option error) :=
  match r with
  | Some (w, out, err) => Some (w, evs ++ out, err)
  | None => None
  end.

(** The loop of [Execute] from its [j]-th command on. *)
Fixpoint runEach (fuel : nat) (range : ranging) (c : Config)
    (executor : string) (j : nat) (commands : list string) (w : World)
  : option (World * list event * option error) :=
  match commands with
  | [] => Some (w, [], None)
  | v :: rest =>
      match withResolvedArgs fuel range [j] v c with
      | None => None
      | Some command =>
          if debug c
          then emit [Printed (cmd_String executor command +:+ String LF "")]
                    (runEach fuel range c executor (S j) rest w)
          else
            let '(w', stderr, err) := cmd_Run executor command w in
            match err with
            | None =>
                emit [Ran executor command None]
                     (runEach fuel range c executor (S j) rest w')
            | Some e =>
                let msg := target c +:+ ": error executing '" +:+ command
                           +:+ "': " +:+ stderr in
                let report :=
                  Printed (if strings.HasSuffix stderr (String LF "")
                           then msg else msg +:+ String LF "") in
                if negb (force c)
                then Some (w', [Ran executor command (Some e); report], Some e)
                else emit [Ran executor command (Some e); report;
                           Printed (Error e +:+ String LF "")]
                          (runEach fuel range c executor (S j) rest w')
            end
      end
  end.

(** [Execute(c)]: the machine afterwards, what was printed and run, and
    the returned error; [None] when a resolution did not end within
    [fuel]. *)
Definition Execute (fuel : nat) (range : ranging) (c : Config) (w : World)
  : option (World * list event * option error) :=
  let executor := if String.eqb GOOS "windows" then "powershell" else "sh" in
  emit (if debug c then [Printed (yaml_Marshal c)] else [])
       (runEach fuel range c executor 0 (thisTarget c) w).

(** The function returned by [ArgsValidator(c)], applied to [args]: the
    configuration it leaves for [Execute], or the error.  [None] when
    resolving the target name did not end within [fuel]. *)
Definition ArgsValidator (fuel : nat) (range : ranging) (c : Config)
    (args : list string) : option (outcome (result Config)) :=
  match getTargetNameAndRunArgs args with
  | Panics msg => Some (Panics msg)
  | Returns (Err err) => Some (Returns (Err err))
  | Returns (Ok (targetName, runArgs)) =>
      let c := set_argReplacements runArgs c in
      match withResolvedArgs fuel range [] targetName c with
      | None => None
      | Some resolved =>
          let c := set_target resolved c in
          match getTargets c with
          | Panics msg => Some (Panics msg)
          | Returns (Err err) => Some (Returns (Err err))
          | Returns (Ok (targets, c)) =>
              match mapaccess (T_Targets targets) targetName with
              | None =>
                  Some (Returns (Err (errors_New
                    ("target " +:+ targetName +:+ " does not exist"))))
              | Some found => Some (Returns (Ok (set_thisTarget found c)))
              end
          end
      end
  end.

End Program.

(** ** Vocabulary of the properties *)

(** The token of a variable, as the code builds it. *)
Definition token (k : string) : string := "$" +:+ k.

(** [free m s]: no entry of the map has its token in [s]. *)
Definition free (m : gmap string string) (s : string) : Prop :=
  ∀ k, is_Some (m !! k) → strings.Contains s (token k) = false.

(** The same, decided by running over the entries. *)
Definition freeb (m : gmap string string) (s : string) : bool :=
  forallb (λ kv, negb (strings.Contains s (token kv.1))) (map_to_list m).

(** The configuration [CreateCommand] starts from, with the two flags as
    the command line set them and [m] for its variables. *)
Definition configWith (m : gmap string string) (debug force : bool) : Config :=
  mkConfig "" m debug force "torto.yml" "~/torto.yml" [].

(** Two lawful ways to range over a map. *)
Definition rangeForwards : ranging := λ _ m, map_to_list m.
Definition rangeBackwards : ranging := λ _ m, reverse (map_to_list m).

(** [references m k j]: the value of [k] contains the token of the key [j]. *)
Definition references (m : gmap string string) (k j : string) : Prop :=
  ∃ v, m !! k = Some v ∧ is_Some (m !! j) ∧ strings.Contains v (token j) = true.

(** No variable references itself, directly or through other variables. *)
Definition acyclic (m : gmap string string) : Prop :=
  ∀ k, ¬ tc (references m) k k.

(** No value contains the token of any key. *)
Definition flat (m : gmap string string) : Prop :=
  ∀ k v, m !! k = Some v → free m v.

(** [reach m s t]: the text [t] can stand in [argValue] while the loop of
    [withResolvedArgs] runs from the text [s]: it is [s], or comes from
    such a text by replacing the token of a key with a text that can so
    stand for the value of that key. *)
Inductive reach (m : gmap string string) : string → string → Prop :=
  | reach_start s : reach m s s
  | reach_replace s t j v r :
      reach m s t →
      m !! j = Some v →
      strings.Contains t (token j) = true →
      reach m v r →
      reach m s (strings.ReplaceAll t (token j) r).

(** [arises m k j]: resolving the value of [k] can come to a text with
    the token of the key [j] in it. *)
Definition arises (m : gmap string string) (k j : string) : Prop :=
  ∃ v t, m !! k = Some v ∧ reach m v t
         ∧ is_Some (m !! j) ∧ strings.Contains t (token j) = true.

(** No variable comes to reference itself, directly or through others,
    in the course of a resolution. *)
Definition cycle_free (m : gmap string string) : Prop :=
  ∀ k, ¬ tc (arises m) k k.

(** [GREETING] references [NAME]. *)
Definition greetingVars : gmap string string :=
  {[ "GREETING" := "hi $NAME"; "NAME" := "world" ]}.

(** [A] references [B] and nothing else; putting the value of [B] in place
    leaves the token of [A]. *)
Definition loopingVars : gmap string string :=
  {[ "A" := "$BA"; "B" := "$" ]}.

(** A nil map read as the empty map. *)
Definition contents {V : Type} (m : option (gmap string V)) : gmap string V :=
  default ∅ m.

(** The error of opening a file that is not there. *)
Definition ENOENT (filename : string) : error :=
  library_error ("open " +:+ filename +:+ ": no such file or directory").

(** The files of the precedence example: the global file sets [X] to 1,
    the local file sets it to 2; neither has a [targets] key. *)
Definition precedenceFiles (filename : string) : result string :=
  if String.eqb filename "~/torto.yml" then Ok "vars: {X: 1}"
  else if String.eqb filename "torto.yml" then Ok "vars: {X: 2}"
  else Err (ENOENT filename).

Definition precedenceYaml (bytes : string) : result Targets :=
  if String.eqb bytes "vars: {X: 1}" then Ok (mkTargets None (Some {[ "X" := "1" ]}))
  else if String.eqb bytes "vars: {X: 2}" then Ok (mkTargets None (Some {[ "X" := "2" ]}))
  else Err (library_error "yaml: unmarshal errors").

(** What [getTargetNameAndRunArgs] makes of [show X=3]. *)
Definition callerVars : gmap string string :=
  {[ "X" := "3"; "CMD" := ""; "BIN" := "/usr/bin/torto" ]}.

(** The files of the greeting example: the global file has only a [vars]
    key, the local file only a [targets] key. *)
Definition greetingFiles (filename : string) : result string :=
  if String.eqb filename "~/torto.yml" then Ok "vars: {GREETING: hi}"
  else if String.eqb filename "torto.yml"
       then Ok "targets: {hello: [echo $GREETING $NAME]}"
       else Err (ENOENT filename).

Definition greetingYaml (bytes : string) : result Targets :=
  if String.eqb bytes "vars: {GREETING: hi}"
  then Ok (mkTargets None (Some {[ "GREETING" := "hi" ]}))
  else if String.eqb bytes "targets: {hello: [echo $GREETING $NAME]}"
       then Ok (mkTargets (Some {[ "hello" := ["echo $GREETING $NAME"] ]}) None)
       else Err (library_error "yaml: unmarshal errors").

(** The configuration [getTargets] receives in the precedence example. *)
Definition callerConfig : Config := configWith callerVars false false.

(** The name and the value of an argument that the pattern matches. *)
Definition assignment (arg : string) : option (string * string) :=
  match FindStringSubmatch arg with
  | [_; name; value] => Some (name, value)
  | _ => None
  end.

(** The pattern in the words of the specification: NAME is one or more
    alphanumeric characters and VALUE is one or more of any characters. *)
Definition spec_pattern (arg name value : string) : Prop :=
  arg = name +:+ "=" +:+ value
  ∧ name ≠ "" ∧ all alnum name = true
  ∧ value ≠ "".

(** An argument whose value has a line feed in it. *)
Definition twoLineArgument : string := "A=x" +:+ String LF "y".

(** The commands of a target after resolution, the [j]-th one resolved as
    [Execute] does at its turn; [None] when one does not end within [fuel]. *)
Fixpoint resolveEach (fuel : nat) (range : ranging) (c : Config) (j : nat)
    (commands : list string) : option (list string) :=
  match commands with
  | [] => Some []
  | v :: rest =>
      match withResolvedArgs fuel range [j] v c with
      | Some command => cons command <$> resolveEach fuel range c (S j) rest
      | None => None
      end
  end.

(** The commands that were run, in order, each with what [cmd.Run()]
    returned. *)
Definition runs (out : list event) : list (string * option error) :=
  omap (λ ev, match ev with
              | Ran _ command err => Some (command, err)
              | Printed _ => None
              end) out.

(** A command that ran without error. *)
Definition passed (command : string) : string * option error := (command, None).

(** The line [Execute] prints for a command in debug mode. *)
Definition shown (cmd_String : string → string → string)
    (executor command : string) : event :=
  Printed (cmd_String executor command +:+ String LF "").

(** [runtime.GOOS] picks the shell. *)
Definition executorOf (GOOS : string) : string :=
  if String.eqb GOOS "windows" then "powershell" else "sh".

(** What a run leaves behind apart from the text it prints: the machine,
    the commands run with their results, and the returned error. *)
Definition observed {World : Type}
    (r : option (World * list event * option error))
  : option (World * list (string * option error) * option error) :=
  (λ '(w, out, err), (w, runs out, err)) <$> r.

(** A machine that keeps the list of the commands it was given; the
    command [false] fails on it and every other command passes. *)
Definition logRun (executor command : string) (w : list string)
  : list string * string * option error :=
  (w ++ [command], "",
   if String.eqb command "false" then Some (library_error "exit status 1")
   else None).

(** A target of two commands, the first of which fails. *)
Definition failingFirst (debug force : bool) : Config :=
  mkConfig "greet" {[ "NAME" := "world" ]} debug force
           "torto.yml" "~/torto.yml" ["false"; "echo $NAME"].

Definition plainString (executor command : string) : string :=
  executor +:+ " -c " +:+ command.

Definition noYaml (c : Config) : string := "{}" +:+ String LF "".

(** The files of the lookup example: no global file, and a local file
    with one target. *)
Definition lookupFiles (filename : string) : result string :=
  if String.eqb filename "torto.yml" then Ok "targets: {$T: [echo literal], build: [echo b]}"
  else Err (ENOENT filename).

Definition lookupYaml (bytes : string) : result Targets :=
  if String.eqb bytes "targets: {$T: [echo literal], build: [echo b]}"
  then Ok (mkTargets (Some {[ "$T" := ["echo literal"]; "build" := ["echo b"] ]}) None)
  else Err (library_error "yaml: unmarshal errors").

(** What [getTargetNameAndRunArgs] makes of [$T T=build]. *)
Definition lookupVars : gmap string string :=
  {[ "T" := "build"; "CMD" := ""; "BIN" := "/usr/bin/torto" ]}.

Definition lookupTargets : Targets :=
  mkTargets (Some {[ "$T" := ["echo literal"]; "build" := ["echo b"] ]})
            (Some ∅).

(** ** Further vocabulary *)

(** Two variables, the name of one a prefix of the name of the other. *)
Definition prefixVars : gmap string string :=
  {[ "FOO" := "1"; "FOOBAR" := "2" ]}.

(** A variable whose value holds its own token. *)
Definition selfVars : gmap string string :=
  {[ "A" := "echo $A" ]}.

(** The files of the merge example: both files define the target
    [build] and the variable [X]; the global file alone defines [clean]. *)
Definition mergeFiles (filename : string) : result string :=
  if String.eqb filename "~/torto.yml" then Ok "global"
  else if String.eqb filename "torto.yml" then Ok "local"
  else Err (ENOENT filename).

Definition mergeYaml (bytes : string) : result Targets :=
  if String.eqb bytes "global"
  then Ok (mkTargets (Some {[ "build" := ["echo a"]; "clean" := ["rm -r out"] ]})
                     (Some {[ "X" := "1" ]}))
  else if String.eqb bytes "local"
       then Ok (mkTargets (Some {[ "build" := ["echo b"] ]})
                          (Some {[ "X" := "2" ]}))
       else Err (library_error "yaml: unmarshal errors").

(** [ranWith executor ev]: if [ev] is a run, it went through [executor]. *)
Definition ranWith (executor : string) (ev : event) : Prop :=
  match ev with
  | Ran e _ _ => e = executor
  | Printed _ => True
  end.

(** The machine after the commands [commands] were run on it one after
    the other through [executor]. *)
Definition machineAfter {World : Type}
    (cmd_Run : string → string → World → World * string * option error)
    (executor : string) (commands : list string) (w : World) : World :=
  foldl (λ w command, (cmd_Run executor command w).1.1) w commands.

(** [loops m kvs t r]: the loop of [withResolvedArgs], run over the
    entries [kvs] from the text [t], leaves the text [r]: an entry whose
    token is not in the text is passed; for one whose token is in it, the
    call on its value, ranging over the map in some order, returns and the
    token is replaced by what it returned. *)
Inductive loops (m : gmap string string)
  : list (string * string) → string → string → Prop :=
  | loops_nil t : loops m [] t t
  | loops_skip k v rest t r :
      strings.Contains t (token k) = false →
      loops m rest t r →
      loops m ((k, v) :: rest) t r
  | loops_call k v rest t r' r kvs :
      strings.Contains t (token k) = true →
      kvs ≡ₚ map_to_list m →
      loops m kvs v r' →
      loops m rest (strings.ReplaceAll t (token k) r') r →
      loops m ((k, v) :: rest) t r.

(** [calls m k j]: a call of [withResolvedArgs] on the value of [k] can
    make a call on the value of [j]: in some order of the map the loop gets
    past the entries before [j] and finds the token of [j] in the text. *)
Definition calls (m : gmap string string) (k j : string) : Prop :=
  ∃ v before vj after t,
    m !! k = Some v
    ∧ before ++ (j, vj) :: after ≡ₚ map_to_list m
    ∧ loops m before v t
    ∧ strings.Contains t (token j) = true.

(** No call on the value of a variable leads to a call on the value of
    the same variable. *)
Definition no_call_cycle (m : gmap string string) : Prop :=
  ∀ k, ¬ tc (calls m) k k.

(** [K] references [P]; with [$P] replaced once its value reads [$$PK],
    and the loop does not come back to [P]. *)
Definition dollarVars : gmap string string :=
  {[ "K" := "$P$PPK"; "P" := "$" ]}.


(** Four variables in a chain: [BASES] uses [DIR], [DIR] uses [ROOT],
    [ROOT] uses [BASE]; the name of [BASE] is a prefix of the name of
    [BASES], and the value of [DIR] holds [S] after the token of [ROOT]. *)
Definition nestedVars : gmap string string :=
  {[ "DIR" := "$ROOTS"; "ROOT" := "$BASE"; "BASE" := "/x";
     "BASES" := "$DIR/y" ]}.
(** * Properties *)

(** ** Resolution *)

Lemma freeb_free m s : freeb m s = true → free m s.
Proof.
  unfold freeb, free. rewrite forallb_forall. intros H k [v Hk].
  apply elem_of_map_to_list, list_elem_of_In, H in Hk.
  by apply negb_true_iff in Hk.
Qed.

Lemma lawful_elem_of range path m k v :
  lawful range → (k, v) ∈ range path m → m !! k = Some v.
Proof. intros L H. rewrite (L path m) in H. by apply elem_of_map_to_list. Qed.

Lemma resolveEntries_free recur i kvs s :
  (∀ k v, (k, v) ∈ kvs → strings.Contains s (token k) = false) →
  resolveEntries recur i kvs s = Some s.
Proof.
  revert i. induction kvs as [|[k v] kvs IH]; intros i H; simpl; [done|].
  fold (token k). rewrite (H k v) by left.
  apply IH. intros k' v' Hin. apply (H k' v'). by right.
Qed.

Lemma withResolvedArgs_free fuel range path s c :
  lawful range → free (argReplacements c) s →
  withResolvedArgs (S fuel) range path s c = Some s.
Proof.
  intros L F. simpl. apply resolveEntries_free. intros k v Hin.
  apply F. exists v. by eapply lawful_elem_of.
Qed.

(** More fuel never changes an answer already reached. *)
Lemma resolveEntries_mono (f g : nat → string → option string) i kvs s r :
  (∀ j v r', f j v = Some r' → g j v = Some r') →
  resolveEntries f i kvs s = Some r → resolveEntries g i kvs s = Some r.
Proof.
  intros Hfg. revert i s. induction kvs as [|[k v] kvs IH]; intros i s; simpl; [done|].
  destruct (strings.Contains s ("$" +:+ k)); [|by apply IH].
  destruct (f i v) as [x|] eqn:E; [|done].
  rewrite (Hfg _ _ _ E). by apply IH.
Qed.

Lemma withResolvedArgs_mono fuel range path s c r :
  withResolvedArgs fuel range path s c = Some r →
  withResolvedArgs (S fuel) range path s c = Some r.
Proof.
  revert path s r. induction fuel as [|n IH]; intros path s r; [done|].
  intros H. simpl in H. change (withResolvedArgs (S (S n)) range path s c)
    with (resolveEntries (λ i v, withResolvedArgs (S n) range (i :: path) v c)
            0 (range path (argReplacements c)) s).
  eapply resolveEntries_mono; [|exact H].
  intros j v r' Hj. by apply IH.
Qed.

(** [C7] Identity when nothing matches: for every variable map and every
    string that contains the token [$KEY] of no key of the map, resolving
    the string gives it back, whatever order the map is ranged over. *)
Theorem resolve_identity_when_nothing_matches
    (range : ranging) (path : list nat) (fuel : nat) (c : Config) (s : string) :
  lawful range →
  (∀ k, is_Some (argReplacements c !! k) →
        strings.Contains s ("$" +:+ k) = false) →
  withResolvedArgs (S fuel) range path s c = Some s.
Proof. intros L F. by apply withResolvedArgs_free. Qed.

Lemma withResolvedArgs_S n range path s c :
  withResolvedArgs (S n) range path s c
  = resolveEntries (λ i v, withResolvedArgs n range (i :: path) v c)
      0 (range path (argReplacements c)) s.
Proof. reflexivity. Qed.

Lemma rangeForwards_lawful : lawful rangeForwards.
Proof. by intros path m. Qed.

Lemma rangeBackwards_lawful : lawful rangeBackwards.
Proof. intros path m. apply reverse_Permutation. Qed.

Lemma resolveEntries_total recur i kvs s :
  (∀ j k v, (k, v) ∈ kvs → is_Some (recur j v)) →
  is_Some (resolveEntries recur i kvs s).
Proof.
  revert i s. induction kvs as [|[k v] kvs IH]; intros i s H; simpl; [by eexists|].
  assert (∀ j k' v', (k', v') ∈ kvs → is_Some (recur j v')) as H'
    by (intros j k' v' Hin; apply (H j k' v'); by right).
  destruct (strings.Contains s ("$" +:+ k)); [|by apply IH].
  destruct (H i k v) as [x ->]; [by left|]. by apply IH.
Qed.

Lemma loopingVars_references k j :
  references loopingVars k j → k = "A" ∧ j = "B".
Proof.
  intros (v & Hk & [w Hj] & Hc). unfold loopingVars in *.
  apply lookup_insert_Some in Hk as [[<- <-]|[_ Hk]].
  - apply lookup_insert_Some in Hj as [[<- _]|[_ Hj]]; [done|].
    apply lookup_singleton_Some in Hj as [<- _]. done.
  - apply lookup_singleton_Some in Hk as [<- <-].
    apply lookup_insert_Some in Hj as [[<- _]|[_ Hj]]; [done|].
    apply lookup_singleton_Some in Hj as [<- _]. done.
Qed.

Lemma loopingVars_acyclic : acyclic loopingVars.
Proof.
  intros k H. inversion H as [x y R|x y z R T]; subst.
  - by apply loopingVars_references in R as [-> ?].
  - apply loopingVars_references in R as [-> ->].
    inversion T as [x y R|x y z R T']; subst;
      by apply loopingVars_references in R as [? _].
Qed.

Lemma loopingVars_backwards path :
  rangeBackwards path loopingVars = [("B", "$"); ("A", "$BA")].
Proof. by vm_compute. Qed.

Lemma loopingVars_recurses force debug fuel path :
  withResolvedArgs fuel rangeBackwards path "$BA"
    (configWith loopingVars debug force) = None.
Proof.
  revert path. induction fuel as [|n IH]; intros path; [done|].
  rewrite withResolvedArgs_S. cbn [argReplacements configWith].
  rewrite loopingVars_backwards. cbn [resolveEntries].
  change (strings.Contains "$BA" ("$" +:+ "B")) with true. cbv iota.
  destruct n as [|n]; [done|].
  rewrite withResolvedArgs_free;
    [|apply rangeBackwards_lawful|by apply freeb_free].
  change (strings.ReplaceAll "$BA" ("$" +:+ "B") "$") with "$A".
  change (strings.Contains "$A" ("$" +:+ "A")) with true. cbv iota.
  by rewrite IH.
Qed.

(** [C6], the claim as stated, fails.  In [A = $BA, B = $] no variable
    references itself, directly or through others, yet resolving [$A]
    never ends when each loop meets [B] before [A]: replacing [$B] in the
    value of [A] leaves [$A], which calls for the value of [A] again. *)
Lemma acyclic_resolution_can_diverge :
  acyclic loopingVars ∧ lawful rangeBackwards ∧
  ∀ fuel, withResolvedArgs fuel rangeBackwards [] "$A"
            (configWith loopingVars false false) = None.
Proof.
  split; [apply loopingVars_acyclic|]. split; [apply rangeBackwards_lawful|].
  intros [|n]; [done|].
  rewrite withResolvedArgs_S. cbn [argReplacements configWith].
  rewrite loopingVars_backwards. cbn [resolveEntries].
  change (strings.Contains "$A" ("$" +:+ "B")) with false.
  change (strings.Contains "$A" ("$" +:+ "A")) with true. cbv iota.
  by rewrite loopingVars_recurses.
Qed.

(** A map none of whose values holds a token resolves every text within
    two nested calls. *)
Lemma flat_maps_resolve
    (range : ranging) (path : list nat) (fuel : nat) (c : Config) (s : string) :
  lawful range →
  flat (argReplacements c) →
  is_Some (withResolvedArgs (S (S fuel)) range path s c).
Proof.
  intros L F. rewrite withResolvedArgs_S. apply resolveEntries_total.
  intros j k v Hin. rewrite withResolvedArgs_free; [by eexists|done|].
  eapply F, lawful_elem_of; eauto.
Qed.

(** *** Termination *)

Lemma withResolvedArgs_mono_le fuel fuel' range path s c r :
  fuel ≤ fuel' →
  withResolvedArgs fuel range path s c = Some r →
  withResolvedArgs fuel' range path s c = Some r.
Proof.
  induction 1 as [|n _ IH]; [done|].
  intros H. by apply withResolvedArgs_mono, IH.
Qed.

(** Whatever is referenced in the course of a resolution is a key. *)
Lemma arises_finite m k : pred_finite (tc (arises m) k).
Proof.
  exists (map_to_list m).*1. intros j Hj.
  assert (is_Some (m !! j)) as [v Hv].
  { induction Hj as [x y (_ & _ & _ & _ & ? & _)|]; done. }
  apply list_elem_of_fmap. exists (j, v). split; [done|].
  by apply elem_of_map_to_list.
Qed.

Lemma arises_sn m k : (∀ j, ¬ tc (arises m) j j) → sn (arises m) k.
Proof.
  intros Hirr. apply tc_finite_sn; [exact Hirr|apply arises_finite].
Qed.

(** The loop ends when every call it can come to make ends. *)
Lemma resolveEntries_ends range c s0 :
  (∀ t j v path,
     reach (argReplacements c) s0 t →
     argReplacements c !! j = Some v →
     strings.Contains t (token j) = true →
     ∃ fuel r, withResolvedArgs fuel range path v c = Some r
               ∧ reach (argReplacements c) v r) →
  ∀ kvs path i t,
    (∀ j v, (j, v) ∈ kvs → argReplacements c !! j = Some v) →
    reach (argReplacements c) s0 t →
    ∃ fuel r,
      resolveEntries (λ i v, withResolvedArgs fuel range (i :: path) v c)
        i kvs t = Some r
      ∧ reach (argReplacements c) s0 r.
Proof.
  intros Hcalls kvs path.
  induction kvs as [|[j v] kvs IH]; intros i t Hin Ht.
  { exists 0, t. by split. }
  assert (∀ j' v', (j', v') ∈ kvs → argReplacements c !! j' = Some v') as Hin'
    by (intros j' v' ?; apply Hin; by right).
  cbn [resolveEntries]. fold (token j).
  destruct (strings.Contains t (token j)) eqn:Hc; [|by apply IH].
  destruct (Hcalls t j v (i :: path) Ht) as (fuel1 & r1 & Hr1 & Hreach1);
    [apply Hin; by left|done|].
  destruct (IH (S i) (strings.ReplaceAll t (token j) r1) Hin')
    as (fuel2 & r & Hr & Hreach).
  { eapply reach_replace; eauto. apply Hin. by left. }
  exists (fuel1 `max` fuel2), r. split; [|done].
  rewrite (withResolvedArgs_mono_le fuel1 _ _ _ _ _ _ (Nat.le_max_l _ _) Hr1).
  eapply resolveEntries_mono; [|exact Hr].
  intros i' v' r'. apply withResolvedArgs_mono_le, Nat.le_max_r.
Qed.

Lemma withResolvedArgs_ends range c s :
  lawful range →
  (∀ t j v path,
     reach (argReplacements c) s t →
     argReplacements c !! j = Some v →
     strings.Contains t (token j) = true →
     ∃ fuel r, withResolvedArgs fuel range path v c = Some r
               ∧ reach (argReplacements c) v r) →
  ∀ path, ∃ fuel r, withResolvedArgs fuel range path s c = Some r
                    ∧ reach (argReplacements c) s r.
Proof.
  intros L Hcalls path.
  destruct (resolveEntries_ends range c s Hcalls
              (range path (argReplacements c)) path 0 s)
    as (fuel & r & Hr & Hreach).
  - intros j v. apply lawful_elem_of, L.
  - constructor.
  - exists (S fuel), r. by rewrite withResolvedArgs_S.
Qed.

(** The value of a key resolves when nothing it comes to reference leads
    back in a cycle. *)
Lemma value_resolves range c k v :
  lawful range →
  sn (arises (argReplacements c)) k →
  argReplacements c !! k = Some v →
  ∀ path, ∃ fuel r, withResolvedArgs fuel range path v c = Some r
                    ∧ reach (argReplacements c) v r.
Proof.
  intros L Hsn. revert v. induction Hsn as [k _ IH]; intros v Hk.
  apply withResolvedArgs_ends; [done|].
  intros t j vj path Ht Hj Hc. apply (IH j); [|done].
  exists v, t. eauto.
Qed.

(** The references read off the values are among those that arise, so a
    map that is [cycle_free] is [acyclic]. *)
Lemma references_arises m k j : references m k j → arises m k j.
Proof. intros (v & Hk & Hj & Hc). exists v, v. by repeat split; try constructor. Qed.

Lemma cycle_free_acyclic m : cycle_free m → acyclic m.
Proof.
  intros H k Hk. apply (H k). clear H.
  assert (∀ x y, tc (references m) x y → tc (arises m) x y) as Hsub; [|by apply Hsub].
  clear. intros x y Hxy. induction Hxy as [x y R|x y z R _ IH].
  - by apply tc_once, references_arises.
  - eapply tc_l; [by apply references_arises|done].
Qed.

Lemma reach_free m s t : free m s → reach m s t → t = s.
Proof.
  intros F H. induction H as [|s t j v r _ IH Hj Hc _ _]; [done|].
  rewrite (IH F) in Hc. rewrite F in Hc; [done|by eexists].
Qed.

Lemma flat_cycle_free m : flat m → cycle_free m.
Proof.
  intros F k Hk.
  assert (∀ x y, arises m x y → False) as Hnone.
  { intros x y (v & t & Hx & Ht & Hy & Hc).
    apply reach_free in Ht as ->; [|by eapply F]. by rewrite (F x v) in Hc. }
  destruct Hk; by eapply Hnone.
Qed.

(** A coarser condition that is enough.  [cycle_free] counts as a
    reference of a variable every key whose token is in a text that
    replacing tokens by values can make from its value; it asks more of the
    map than the resolution does, which replaces the token of a key once in
    a loop, by the result of the call on its value. *)
Theorem resolve_total_when_cycle_free
    (range : ranging) (path : list nat) (c : Config) (s : string) :
  lawful range →
  cycle_free (argReplacements c) →
  ∃ fuel r, ∀ n, withResolvedArgs (fuel + n) range path s c = Some r.
Proof.
  intros L Hfree.
  destruct (withResolvedArgs_ends range c s L) with (path := path)
    as (fuel & r & Hr & _).
  { intros t j v p _ Hj _. eapply value_resolves; eauto.
    by apply arises_sn. }
  exists fuel, r. intros n.
  eapply withResolvedArgs_mono_le; [|exact Hr]. lia.
Qed.

(** The greeting variables: what can be reached and what arises. *)
Lemma greetingVars_lookup j v :
  greetingVars !! j = Some v →
  (j = "GREETING" ∧ v = "hi $NAME") ∨ (j = "NAME" ∧ v = "world").
Proof.
  unfold greetingVars. intros [[<- <-]|[_ H]]%lookup_insert_Some; [by left|].
  apply lookup_singleton_Some in H as [<- <-]. by right.
Qed.

Lemma greetingVars_reach s t :
  reach greetingVars s t →
  (s = "world" → t = "world")
  ∧ (s = "hi $NAME" → t = "hi $NAME" ∨ t = "hi world").
Proof.
  induction 1 as [s|s t j v r _ [IHw IHg] Hj Hc _ [IHr _]].
  { split; intros ->; auto. }
  apply greetingVars_lookup in Hj as [[-> ->]|[-> ->]]; split; intros ->.
  - rewrite (IHw eq_refl) in Hc. by vm_compute in Hc.
  - destruct (IHg eq_refl) as [->| ->]; by vm_compute in Hc.
  - rewrite (IHw eq_refl) in Hc. by vm_compute in Hc.
  - rewrite (IHr eq_refl).
    destruct (IHg eq_refl) as [->| ->]; [by right|by vm_compute in Hc].
Qed.

Lemma greetingVars_arises k j :
  arises greetingVars k j → k = "GREETING" ∧ j = "NAME".
Proof.
  intros (v & t & Hk & Ht & [w Hj] & Hc).
  apply greetingVars_reach in Ht as [Hw Hg].
  apply greetingVars_lookup in Hk as [[-> ->]|[-> ->]];
    apply greetingVars_lookup in Hj as [[-> ->]|[-> ->]].
  - destruct (Hg eq_refl) as [->| ->]; by vm_compute in Hc.
  - done.
  - rewrite (Hw eq_refl) in Hc. by vm_compute in Hc.
  - rewrite (Hw eq_refl) in Hc. by vm_compute in Hc.
Qed.

Lemma greetingVars_cycle_free : cycle_free greetingVars.
Proof.
  intros k H. inversion H as [x y R|x y z R T]; subst.
  - by apply greetingVars_arises in R as [-> ?].
  - apply greetingVars_arises in R as [-> ->].
    inversion T as [x y R|x y z R T']; subst;
      by apply greetingVars_arises in R as [? _].
Qed.

Lemma greetingVars_resolve :
  withResolvedArgs 3 rangeBackwards [] "echo $GREETING"
    (configWith greetingVars false false) = Some "echo hi world".
Proof. by vm_compute. Qed.

(** Resolving against the greeting variables, in an example. *)
Lemma resolve_total_witness :
  ∃ fuel r, ∀ n,
    withResolvedArgs (fuel + n) rangeBackwards [] "echo $GREETING"
      (configWith greetingVars false false) = Some r.
Proof.
  apply (resolve_total_when_cycle_free rangeBackwards []
           (configWith greetingVars false false) "echo $GREETING").
  - intros path m. apply reverse_Permutation.
  - apply greetingVars_cycle_free.
Defined.

(** One variable to put in place: when the token of [k] is the only token
    in [s], the value of [k] holds no token and neither does the text
    after the replacement, that text is the result in every order. *)
Lemma resolveEntries_single recur i kvs s k v :
  (∀ j, recur j v = Some v) →
  (∀ v', (k, v') ∈ kvs → v' = v) →
  (∀ k' v', (k', v') ∈ kvs → k' ≠ k → strings.Contains s (token k') = false) →
  (∀ k' v', (k', v') ∈ kvs →
     strings.Contains (strings.ReplaceAll s (token k) v) (token k') = false) →
  strings.Contains s (token k) = true →
  resolveEntries recur i kvs s
  = Some (if decide (k ∈ kvs.*1) then strings.ReplaceAll s (token k) v else s).
Proof.
  intros Hrec. revert i. induction kvs as [|[k0 v0] kvs IH]; intros i Hv Hs Hs' Hk.
  { cbn. rewrite decide_False; [done|]. apply not_elem_of_nil. }
  cbn [resolveEntries]. fold (token k0).
  destruct (decide (k0 = k)) as [->|Hne].
  - rewrite Hk. rewrite (Hv v0) by left. rewrite Hrec.
    rewrite resolveEntries_free.
    + rewrite decide_True; [done|]. cbn. left.
    + intros k' v' Hin. apply (Hs' k' v'). by right.
  - rewrite (Hs k0 v0); [|left|done]. rewrite IH.
    + destruct (decide (k ∈ kvs.*1)) as [Hin|Hin].
      * rewrite decide_True; [done|]. cbn. by right.
      * rewrite decide_False; [done|]. cbn. rewrite elem_of_cons. by intros [->|?].
    + intros v' Hin. apply Hv. by right.
    + intros k' v' Hin. apply (Hs k' v'). by right.
    + intros k' v' Hin. apply (Hs' k' v'). by right.
    + done.
Qed.

Lemma withResolvedArgs_single fuel range path c s k v :
  lawful range →
  argReplacements c !! k = Some v →
  free (argReplacements c) v →
  free (delete k (argReplacements c)) s →
  strings.Contains s (token k) = true →
  free (argReplacements c) (strings.ReplaceAll s (token k) v) →
  withResolvedArgs (S (S fuel)) range path s c
  = Some (strings.ReplaceAll s (token k) v).
Proof.
  intros L Hk Fv Fs Hc Fr. rewrite withResolvedArgs_S.
  rewrite (resolveEntries_single _ _ _ _ k v).
  - rewrite decide_True; [done|].
    apply list_elem_of_fmap. exists (k, v). split; [done|].
    rewrite (L path). by apply elem_of_map_to_list.
  - intros j. by apply withResolvedArgs_free.
  - intros v' Hin. apply (lawful_elem_of _ _ _ _ _ L) in Hin. congruence.
  - intros k' v' Hin Hne. apply Fs. exists v'.
    rewrite lookup_delete_ne by done. by eapply lawful_elem_of.
  - intros k' v' Hin. apply Fr. exists v'. by eapply lawful_elem_of.
  - done.
Qed.

(** ** Loading and merging *)

Lemma overwrite_lookup {V} (dst : gmap string V) kvs k :
  NoDup kvs.*1 →
  overwrite dst kvs !! k
  = match (list_to_map kvs : gmap string V) !! k with
    | Some v => Some v
    | None => dst !! k
    end.
Proof.
  revert dst. induction kvs as [|[a b] kvs IH]; intros dst ND; [done|].
  apply NoDup_cons in ND as [Ha ND]. cbn [overwrite foldl fst snd].
  fold (overwrite (<[a:=b]> dst) kvs). rewrite IH by done. cbn [list_to_map foldr].
  destruct (decide (a = k)) as [->|Hne].
  - rewrite lookup_insert_eq, (not_elem_of_list_to_map_1 _ k Ha).
    by rewrite lookup_insert_eq.
  - by rewrite !(lookup_insert_ne _ a k) by done.
Qed.

(** The loop gives the same map in whatever order the source is ranged
    over: the source laid over the destination. *)
Lemma overwrite_union {V} (src dst : gmap string V) kvs :
  kvs ≡ₚ map_to_list src → overwrite dst kvs = src ∪ dst.
Proof.
  intros P. apply map_eq. intros k.
  assert (NoDup kvs.*1) as ND by (rewrite P; apply NoDup_fst_map_to_list).
  rewrite overwrite_lookup by done.
  rewrite (list_to_map_proper kvs (map_to_list src)), list_to_map_to_list by done.
  rewrite lookup_union. by destruct (src !! k), (dst !! k).
Qed.

Lemma assignEach_Some {V} (m : gmap string V) kvs :
  assignEach (Some m) kvs = Returns (Some (overwrite m kvs)).
Proof.
  revert m. induction kvs as [|[k v] kvs IH]; intros m; [done|].
  cbn. apply IH.
Qed.

Lemma assignEach_entries {V} (dst src : option (gmap string V)) :
  assignEach dst (entries src)
  = match dst with
    | Some g => Returns (Some (contents src ∪ g))
    | None => if decide (contents src = ∅) then Returns None
              else Panics "assignment to entry in nil map"
    end.
Proof.
  destruct dst as [g|].
  - rewrite assignEach_Some. f_equal. f_equal. destruct src as [l|]; cbn.
    + by apply overwrite_union.
    + by rewrite (left_id_L ∅ (∪)).
  - destruct src as [l|]; cbn; [|by rewrite decide_True].
    destruct (map_to_list l) as [|[k v] kvs] eqn:E.
    + apply map_to_list_empty_iff in E as ->. by rewrite decide_True.
    + rewrite decide_False; [done|]. intros ->. by rewrite map_to_list_empty in E.
Qed.

Lemma overwrite_map_to_list {V} (dst src : gmap string V) :
  overwrite dst (map_to_list src) = src ∪ dst.
Proof. by apply overwrite_union. Qed.

Lemma overwrite_entries {V} (dst : gmap string V) (src : option (gmap string V)) :
  overwrite dst (entries src) = contents src ∪ dst.
Proof.
  destruct src as [l|]; cbn.
  - by apply overwrite_union.
  - by rewrite (left_id_L ∅ (∪)).
Qed.

Lemma mapaccess_contents {V} (m : option (gmap string V)) k :
  mapaccess m k = contents m !! k.
Proof. by destruct m. Qed.

Section Loading.

Variable os_Open : string → result string.
Variable yaml_Unmarshal : string → result Targets.

(** What [getTargets] leaves in [c.argReplacements]: the merged file
    variables laid over what was there. *)
Lemma getTargets_argReplacements c targets c' :
  getTargets os_Open yaml_Unmarshal c = Returns (Ok (targets, c')) →
  c' = set_argReplacements (contents (T_Vars targets) ∪ argReplacements c) c.
Proof.
  unfold getTargets.
  set (d := getTargetsFile os_Open yaml_Unmarshal (defaultTargetsFilePath c)).
  set (t := getTargetsFile os_Open yaml_Unmarshal (targetsFilePath c)).
  assert (∀ D T : Targets,
    (tgs ← assignEach (T_Targets D) (entries (T_Targets T));
     vars ← assignEach (T_Vars D) (entries (T_Vars T));
     Returns (Ok (mkTargets tgs vars,
                  set_argReplacements
                    (overwrite (argReplacements c) (entries vars)) c)))
    = Returns (Ok (targets, c')) →
    c' = set_argReplacements (contents (T_Vars targets) ∪ argReplacements c) c)
    as Hbody.
  { intros D T H.
    destruct (assignEach (T_Targets D) _) as [tgs|]; [|done]. cbn in H.
    destruct (assignEach (T_Vars D) _) as [vars|]; [|done]. cbn in H.
    injection H as <- <-. cbn -[overwrite]. by rewrite overwrite_entries. }
  destruct d as [D|e1], t as [T|e2]; try apply Hbody. done.
Qed.

(** Where the global file gave both maps, the local entries replace the
    global ones of the same key and the others stay. *)
Lemma getTargets_local_wins c gt gv lt lv :
  getTargetsFile os_Open yaml_Unmarshal (defaultTargetsFilePath c) = Ok (mkTargets (Some gt) (Some gv)) →
  getTargetsFile os_Open yaml_Unmarshal (targetsFilePath c) = Ok (mkTargets lt lv) →
  getTargets os_Open yaml_Unmarshal c
  = Returns (Ok (mkTargets (Some (contents lt ∪ gt)) (Some (contents lv ∪ gv)),
                 set_argReplacements
                   ((contents lv ∪ gv) ∪ argReplacements c) c)).
Proof.
  intros Hd Ht. unfold getTargets. rewrite Hd, Ht. cbn.
  rewrite !assignEach_entries. cbn -[overwrite]. by rewrite overwrite_map_to_list.
Qed.

(** [C1], amended.  Every name of the merged file-defined variables is
    bound, in the map used for resolution, to its file-defined value,
    whatever the caller supplied or reserved under that name; the caller's
    and the reserved values stay for the names the files do not define. *)
Theorem file_variables_override_caller c targets c' :
  getTargets os_Open yaml_Unmarshal c = Returns (Ok (targets, c')) →
  ∀ k, argReplacements c' !! k
       = match mapaccess (T_Vars targets) k with
         | Some fileValue => Some fileValue
         | None => argReplacements c !! k
         end.
Proof.
  intros H k. rewrite (getTargets_argReplacements _ _ _ H). cbn.
  rewrite lookup_union, mapaccess_contents.
  by destruct (contents (T_Vars targets) !! k), (argReplacements c !! k).
Qed.

(** [C3] Loading returns an error exactly when both loads fail, and the
    error is then the one of the local load.  When only the global load
    fails the result is the local definitions alone, and when only the
    local load fails it is the global definitions alone; in both cases
    no error is returned and the variables of that one source are laid
    over [c.argReplacements]. *)
Theorem loading_fails_only_when_both_fail c :
  (∀ e, getTargets os_Open yaml_Unmarshal c = Returns (Err e)
        ↔ (∃ e', getTargetsFile os_Open yaml_Unmarshal (defaultTargetsFilePath c) = Err e')
          ∧ getTargetsFile os_Open yaml_Unmarshal (targetsFilePath c) = Err e)
  ∧ (∀ e' t, getTargetsFile os_Open yaml_Unmarshal (defaultTargetsFilePath c) = Err e' →
             getTargetsFile os_Open yaml_Unmarshal (targetsFilePath c) = Ok t →
             getTargets os_Open yaml_Unmarshal c
             = Returns (Ok (mkTargets (Some (contents (T_Targets t)))
                                      (Some (contents (T_Vars t))),
                            set_argReplacements
                              (contents (T_Vars t) ∪ argReplacements c) c)))
  ∧ (∀ e' t, getTargetsFile os_Open yaml_Unmarshal (defaultTargetsFilePath c) = Ok t →
             getTargetsFile os_Open yaml_Unmarshal (targetsFilePath c) = Err e' →
             getTargets os_Open yaml_Unmarshal c
             = Returns (Ok (t, set_argReplacements
                                 (contents (T_Vars t) ∪ argReplacements c) c))).
Proof.
  split; [|split].
  - intros e. unfold getTargets.
    destruct (getTargetsFile os_Open yaml_Unmarshal (defaultTargetsFilePath c)) as [D|e1],
             (getTargetsFile os_Open yaml_Unmarshal (targetsFilePath c)) as [T|e2].
    1-3: split; [|by intros [[? ?] ?]]; intros H; exfalso; revert H;
         cbn -[assignEach];
         repeat (destruct (assignEach _ _); cbn -[assignEach]); done.
    split; [intros [= ->]; eauto|by intros [_ [= ->]]].
  - intros e' t Hd Ht. unfold getTargets. rewrite Hd, Ht. cbn.
    rewrite !assignEach_entries. cbn -[overwrite].
    rewrite !(right_id_L ∅ (∪)). by rewrite overwrite_map_to_list.
  - intros e' [tt tv] Hd Ht. unfold getTargets. rewrite Hd, Ht.
    cbn -[overwrite]. rewrite !map_to_list_empty. cbn -[overwrite].
    by rewrite overwrite_entries.
Qed.

End Loading.

(** [C4] The merge is lost where the global file was read but has no
    [targets] key: with the local file defining a target, [getTargets]
    panics on the write into the nil map instead of returning the local
    definition. *)
Theorem merge_panics_on_absent_global_mapping :
  getTargets greetingFiles greetingYaml (configWith ∅ false false)
  = Panics "assignment to entry in nil map".
Proof. by vm_compute. Qed.

(** [C1], the claim as stated, fails.  With the global file setting [X]
    to 1, the local file setting it to 2 and the caller passing [X=3], the
    map used for resolution binds [X] to 2 and [$X] resolves to 2. *)
Lemma caller_value_is_overwritten :
  argReplacements callerConfig !! "X" = Some "3"
  ∧ ∃ targets c',
      getTargets precedenceFiles precedenceYaml callerConfig
      = Returns (Ok (targets, c'))
      ∧ mapaccess (T_Vars targets) "X" = Some "2"
      ∧ argReplacements c' !! "X" = Some "2"
      ∧ ∀ range fuel path, lawful range →
          withResolvedArgs (S (S fuel)) range path "$X" c' = Some "2".
Proof.
  split; [by vm_compute|].
  exists (mkTargets None (Some {[ "X" := "2" ]})),
         (configWith (<[ "X" := "2" ]> callerVars) false false).
  split; [by vm_compute|]. split; [by vm_compute|]. split; [by vm_compute|].
  intros range fuel path L.
  rewrite (withResolvedArgs_single _ _ _ _ _ "X" "2"); try done.
  all: by apply freeb_free.
Qed.

(** At the precedence example the file value 2 is what [X] is bound to. *)
Lemma file_variables_override_caller_witness :
  getTargets precedenceFiles precedenceYaml callerConfig
  = Returns (Ok (mkTargets None (Some {[ "X" := "2" ]}),
                 configWith (<[ "X" := "2" ]> callerVars) false false))
  ∧ argReplacements (configWith (<[ "X" := "2" ]> callerVars) false false)
      !! "X" = Some "2".
Proof.
  assert (getTargets precedenceFiles precedenceYaml callerConfig
          = Returns (Ok (mkTargets None (Some {[ "X" := "2" ]}),
                         configWith (<[ "X" := "2" ]> callerVars) false false)))
    as H by (vm_compute; reflexivity).
  split; [exact H|].
  rewrite (file_variables_override_caller precedenceFiles precedenceYaml
             callerConfig _ _ H "X").
  reflexivity.
Defined.

(** With no global file, the definitions of the local file are the
    result. *)
Lemma loading_witness :
  getTargets lookupFiles lookupYaml (configWith lookupVars false false)
  = Returns (Ok (lookupTargets, configWith lookupVars false false)).
Proof.
  rewrite (proj1 (proj2 (loading_fails_only_when_both_fail
                           lookupFiles lookupYaml
                           (configWith lookupVars false false)))
             (ENOENT "~/torto.yml")
             (mkTargets (Some {[ "$T" := ["echo literal"];
                                 "build" := ["echo b"] ]}) None)).
  - vm_compute. reflexivity.
  - vm_compute. reflexivity.
  - vm_compute. reflexivity.
Defined.

(** Resolving a text without tokens, in an example. *)
Lemma resolve_identity_witness :
  withResolvedArgs 1 rangeForwards [] "echo hi"
    (configWith {[ "NAME" := "world" ]} false false)
  = Some "echo hi".
Proof.
  apply (resolve_identity_when_nothing_matches rangeForwards [] 0).
  - intros path m. reflexivity.
  - apply freeb_free. vm_compute. reflexivity.
Defined.

(** ** Parsing the arguments *)

Lemma append_nil_l s : "" +:+ s = s.
Proof. reflexivity. Qed.

Lemma append_cons b s t : String b s +:+ t = String b (s +:+ t).
Proof. reflexivity. Qed.

Lemma span_spec p s pre post :
  span p s = (pre, post) →
  s = pre +:+ post ∧ all p pre = true
  ∧ match post with String b _ => p b = false | EmptyString => True end.
Proof.
  revert pre post. induction s as [|b s IH]; intros pre post; cbn.
  { by intros [= <- <-]. }
  destruct (p b) eqn:Hb.
  - destruct (span p s) as [pre' post'] eqn:E. intros [= <- <-].
    destruct (IH _ _ eq_refl) as (-> & Hall & Hpost).
    repeat split; [|done]. cbn. rewrite Hall. by destruct (p b).
  - by intros [= <- <-].
Qed.

Lemma span_cons p b s :
  span p (String b s)
  = if p b then let '(pre, post) := span p s in (String b pre, post)
    else ("", String b s).
Proof. reflexivity. Qed.

Lemma span_app p pre b post :
  all p pre = true → p b = false →
  span p (pre +:+ String b post) = (pre, String b post).
Proof.
  intros Hall Hb. induction pre as [|a pre IH].
  - by rewrite append_nil_l, span_cons, Hb.
  - cbn in Hall. apply andb_true_iff in Hall as [Ha Hall].
    by rewrite append_cons, span_cons, Ha, IH.
Qed.

Lemma eqb_empty_false s : s ≠ "" → String.eqb s "" = false.
Proof. intros H. by apply String.eqb_neq. Qed.

(** The function finds exactly the matches of the pattern, with the two
    groups the pattern determines. *)
Lemma FindStringSubmatch_pattern arg name value :
  FindStringSubmatch arg = [arg; name; value] ↔ pattern arg name value.
Proof.
  unfold FindStringSubmatch, pattern. split.
  - destruct (span alnum arg) as [pre post] eqn:E.
    apply span_spec in E as (Harg & Hall & _).
    destruct pre as [|b pre]; [done|]. destruct post as [|e post]; [done|].
    destruct (Ascii.eqb e "=") eqn:He; [|done]. apply Ascii.eqb_eq in He as ->.
    destruct (String.eqb post "") eqn:Hv; [done|]. apply String.eqb_neq in Hv.
    destruct (all dot post) eqn:Hd; [|done]. cbn. by intros [= <- <-].
  - intros (-> & Hn & Hall & Hv & Hd).
    change (name +:+ "=" +:+ value) with (name +:+ String "=" value).
    rewrite (span_app alnum name "=" value Hall) by done.
    destruct name as [|b name]; [done|].
    by rewrite Ascii.eqb_refl, (eqb_empty_false value), Hd.
Qed.

(** Nothing else comes out of it: nil, or the whole argument and two
    non-empty groups. *)
Lemma FindStringSubmatch_cases arg :
  FindStringSubmatch arg = []
  ∨ ∃ name value,
      FindStringSubmatch arg = [arg; name; value] ∧ name ≠ "" ∧ value ≠ "".
Proof.
  unfold FindStringSubmatch.
  destruct (span alnum arg) as [[|b pre] [|e post]]; try by left.
  destruct (Ascii.eqb e "="); [|by left].
  destruct (String.eqb post "") eqn:Hv; [by left|]. apply String.eqb_neq in Hv.
  destruct (all dot post); [|by left]. right. by exists (String b pre), post.
Qed.

Lemma assignment_pattern arg name value :
  assignment arg = Some (name, value) ↔ pattern arg name value.
Proof.
  rewrite <-FindStringSubmatch_pattern. unfold assignment.
  destruct (FindStringSubmatch_cases arg) as [->|(n & v & -> & _)]; [done|].
  split; [by intros [= -> ->]|by intros [= -> ->]].
Qed.

(** The loop, told as a whole: the assignments are written in argument
    order and the other arguments are appended in order. *)
Lemma classify_spec programArgs runArgs nonValueReplacementArgs :
  classify programArgs runArgs nonValueReplacementArgs
  = Returns (overwrite runArgs (omap assignment programArgs),
             nonValueReplacementArgs
             ++ filter (λ a, assignment a = None) programArgs).
Proof.
  revert runArgs nonValueReplacementArgs.
  induction programArgs as [|arg rest IH]; intros runArgs others.
  { cbn. by rewrite app_nil_r. }
  rewrite filter_cons.
  change (omap assignment (arg :: rest))
    with (match assignment arg with
          | Some kv => kv :: omap assignment rest
          | None => omap assignment rest
          end).
  cbn [classify].
  destruct (FindStringSubmatch_cases arg) as [E|(n & v & E & _ & Hv)].
  - assert (assignment arg = None) as -> by (unfold assignment; by rewrite E).
    rewrite E. cbn -[classify]. rewrite IH, decide_True by done.
    by rewrite <-app_assoc.
  - assert (assignment arg = Some (n, v)) as ->
      by (unfold assignment; by rewrite E).
    rewrite E. cbn -[classify overwrite]. rewrite (eqb_empty_false v Hv).
    cbn -[classify overwrite]. rewrite IH. by rewrite decide_False by done.
Qed.

(** Writing entries in order leaves, for each key, its last entry. *)
Lemma overwrite_last_wins {V} (dst : gmap string V) kvs :
  overwrite dst kvs = list_to_map (reverse kvs) ∪ dst.
Proof.
  revert dst. induction kvs as [|[a b] kvs IH]; intros dst.
  { cbn. by rewrite (left_id_L ∅ (∪)). }
  cbn [overwrite foldl fst snd]. fold (overwrite (<[a:=b]> dst) kvs).
  rewrite IH, reverse_cons, list_to_map_app. cbn [list_to_map foldr].
  rewrite <-(assoc_L (∪)). f_equal.
  by rewrite insert_union_singleton_l, insert_empty.
Qed.

Lemma getTargetNameAndRunArgs_spec os_Executable programArgs :
  getTargetNameAndRunArgs os_Executable programArgs
  = match filter (λ a, assignment a = None) programArgs with
    | [] => Returns (Err (errors_New "target missing. check usage with -h"))
    | target :: others =>
        match os_Executable with
        | Err err => Returns (Err err)
        | Ok path =>
            Returns (Ok (target,
              <["BIN" := path]>
                (<["CMD" := strings.Join others " "]>
                   (list_to_map (reverse (omap assignment programArgs))))))
        end
    end.
Proof.
  unfold getTargetNameAndRunArgs. rewrite classify_spec. cbn -[overwrite].
  rewrite overwrite_last_wins, (right_id_L ∅ (∪)). done.
Qed.

(** [C5], the claim as stated, fails.  The argument [A=x], a line feed,
    [y] is NAME=VALUE with a non-empty VALUE, yet it is not made a variable:
    it is left among the other arguments and becomes the target name. *)
Lemma line_feed_value_is_no_assignment :
  spec_pattern twoLineArgument "A" ("x" +:+ String LF "y")
  ∧ getTargetNameAndRunArgs (Ok "/usr/bin/torto") [twoLineArgument]
    = Returns (Ok (twoLineArgument,
                   {[ "CMD" := ""; "BIN" := "/usr/bin/torto" ]})).
Proof. split; [by repeat split|by vm_compute]. Qed.

(** [C5], amended.  Parsing splits the arguments by the pattern
    NAME=VALUE, NAME one or more alphanumerics and VALUE one or more
    characters other than the line feed: the matching arguments become
    entries of the variable map, the last one of a name winning, and the
    others are kept in order.  With none left the parse fails with the
    missing-target error.  Otherwise, if the path of the executable cannot
    be found that error is returned, and else the target name is the first
    of them, [CMD] is bound to the rest joined with single spaces and
    [BIN] to the path. *)
Theorem parse_partitions_arguments
    (os_Executable : result string) (programArgs : list string) :
  (∀ arg name value,
     assignment arg = Some (name, value) ↔ pattern arg name value)
  ∧ getTargetNameAndRunArgs os_Executable programArgs
    = match filter (λ a, assignment a = None) programArgs with
      | [] => Returns (Err (errors_New "target missing. check usage with -h"))
      | target :: others =>
          match os_Executable with
          | Err err => Returns (Err err)
          | Ok path =>
              Returns (Ok (target,
                <["BIN" := path]>
                  (<["CMD" := strings.Join others " "]>
                     (list_to_map (reverse (omap assignment programArgs))))))
          end
      end.
Proof.
  split; [apply assignment_pattern|apply getTargetNameAndRunArgs_spec].
Qed.

(** [C10] Whenever the pattern matches an argument the second capture
    group is not empty, so the branch that reads position 3 of the
    three-element match is never taken, and parsing returns without an
    out-of-range access. *)
Theorem value_group_is_never_empty
    (os_Executable : result string) (programArgs : list string) :
  (∀ arg, FindStringSubmatch arg = []
          ∨ ∃ name value,
              FindStringSubmatch arg = [arg; name; value] ∧ value ≠ "")
  ∧ ∃ r, getTargetNameAndRunArgs os_Executable programArgs = Returns r.
Proof.
  split.
  - intros arg.
    destruct (FindStringSubmatch_cases arg) as [?|(n & v & ? & _ & ?)]; eauto.
  - rewrite getTargetNameAndRunArgs_spec.
    destruct (filter _ programArgs); [by eexists|].
    destruct os_Executable; by eexists.
Qed.

(** ** Running the commands *)

Lemma runs_app out1 out2 : runs (out1 ++ out2) = runs out1 ++ runs out2.
Proof. apply omap_app. Qed.

Lemma resolveEach_cons fuel range c j v rest commands :
  resolveEach fuel range c j (v :: rest) = Some commands →
  ∃ command rest',
    withResolvedArgs fuel range [j] v c = Some command
    ∧ resolveEach fuel range c (S j) rest = Some rest'
    ∧ commands = command :: rest'.
Proof.
  cbn. destruct (withResolvedArgs fuel range [j] v c) as [command|]; [|done].
  destruct (resolveEach fuel range c (S j) rest) as [rest'|]; [|done].
  intros [= <-]. eauto.
Qed.

Section Running.

Variable cmd_String : string → string → string.
Variable World : Type.
Variable cmd_Run : string → string → World → World * string * option error.

(** In debug mode every command is printed and none is run. *)
Lemma runEach_debug fuel range c executor j commands resolved w :
  debug c = true →
  resolveEach fuel range c j commands = Some resolved →
  runEach cmd_String World cmd_Run fuel range c executor j commands w
  = Some (w, shown cmd_String executor <$> resolved, None).
Proof.
  intros Hd. revert j resolved.
  induction commands as [|v rest IH]; intros j resolved H.
  { by injection H as <-. }
  apply resolveEach_cons in H as (command & rest' & Hv & Hrest & ->).
  cbn [runEach]. rewrite Hv, Hd, (IH _ _ Hrest). done.
Qed.

(** With [force], every command is run and no error is returned. *)
Lemma runEach_force fuel range c executor j commands resolved w :
  debug c = false → force c = true →
  resolveEach fuel range c j commands = Some resolved →
  ∃ w' out,
    runEach cmd_String World cmd_Run fuel range c executor j commands w
    = Some (w', out, None)
    ∧ (runs out).*1 = resolved.
Proof.
  intros Hd Hf. revert j resolved w.
  induction commands as [|v rest IH]; intros j resolved w H.
  { injection H as <-. by exists w, []. }
  apply resolveEach_cons in H as (command & rest' & Hv & Hrest & ->).
  cbn [runEach]. rewrite Hv, Hd, Hf.
  destruct (cmd_Run executor command w) as [[w1 stderr] [e|]];
    destruct (IH _ _ w1 Hrest) as (w' & out & -> & Hout);
    eexists _, _; (split; [reflexivity|]);
    by rewrite runs_app, fmap_app, Hout.
Qed.

(** Without [force], the run goes on while the commands pass and ends at
    the first one that fails, with its error. *)
Lemma runEach_stop fuel range c executor j commands resolved w :
  debug c = false → force c = false →
  resolveEach fuel range c j commands = Some resolved →
  ∃ w' out err,
    runEach cmd_String World cmd_Run fuel range c executor j commands w
    = Some (w', out, err)
    ∧ ((err = None ∧ runs out = passed <$> resolved)
       ∨ ∃ before command after e,
           resolved = before ++ command :: after
           ∧ runs out = (passed <$> before) ++ [(command, Some e)]
           ∧ err = Some e).
Proof.
  intros Hd Hf. revert j resolved w.
  induction commands as [|v rest IH]; intros j resolved w H.
  { injection H as <-. exists w, [], None. split; [done|]. by left. }
  apply resolveEach_cons in H as (command & rest' & Hv & Hrest & ->).
  cbn [runEach]. rewrite Hv, Hd, Hf.
  destruct (cmd_Run executor command w) as [[w1 stderr] [e|]].
  - eexists _, _, _. split; [reflexivity|]. right.
    by exists [], command, rest', e.
  - destruct (IH _ _ w1 Hrest) as (w' & out & err & -> & Hout).
    eexists _, _, _. split; [reflexivity|]. rewrite runs_app. cbn.
    destruct Hout as [[-> ->]|(before & cmd & after & e & -> & -> & ->)].
    + by left.
    + right. by exists (command :: before), cmd, after, e.
Qed.


Lemma runEach_total fuel range c executor j commands resolved w :
  resolveEach fuel range c j commands = Some resolved →
  ∃ w' out err,
    runEach cmd_String World cmd_Run fuel range c executor j commands w
    = Some (w', out, err).
Proof.
  intros H. destruct (debug c) eqn:Hd.
  - rewrite (runEach_debug _ _ _ _ _ _ _ _ Hd H). eauto.
  - destruct (force c) eqn:Hf.
    + destruct (runEach_force _ _ _ executor _ _ _ w Hd Hf H) as (?&?&?&?). eauto.
    + destruct (runEach_stop _ _ _ executor _ _ _ w Hd Hf H) as (?&?&?&?&?). eauto.
Qed.

End Running.

Section Executing.

Variable yaml_Marshal : Config → string.
Variable GOOS : string.
Variable cmd_String : string → string → string.
Variable World : Type.
Variable cmd_Run : string → string → World → World * string * option error.

(** What [Execute] does in each of its modes. *)
Lemma Execute_modes fuel range c w resolved :
  resolveEach fuel range c 0 (thisTarget c) = Some resolved →
  ∃ w' out err,
    Execute yaml_Marshal GOOS cmd_String World cmd_Run fuel range c w
    = Some (w', out, err)
    ∧ match debug c, force c with
      | true, _ =>
          w' = w ∧ err = None
          ∧ out = Printed (yaml_Marshal c)
                  :: (shown cmd_String (executorOf GOOS) <$> resolved)
      | false, true => err = None ∧ (runs out).*1 = resolved
      | false, false =>
          (err = None ∧ runs out = passed <$> resolved)
          ∨ ∃ before command after e,
              resolved = before ++ command :: after
              ∧ runs out = (passed <$> before) ++ [(command, Some e)]
              ∧ err = Some e
      end.
Proof.
  intros H. unfold Execute. fold (executorOf GOOS).
  destruct (debug c) eqn:Hd; [|destruct (force c) eqn:Hf].
  - rewrite (runEach_debug _ _ _ _ _ _ _ _ _ _ _ Hd H). by eexists _, _, _.
  - destruct (runEach_force cmd_String World cmd_Run _ _ _ (executorOf GOOS)
                _ _ _ w Hd Hf H) as (w' & out & -> & Hout).
    by eexists _, _, _.
  - destruct (runEach_stop cmd_String World cmd_Run _ _ _ (executorOf GOOS)
                _ _ _ w Hd Hf H) as (w' & out & err & -> & Hout).
    by eexists _, _, _.
Qed.



End Executing.

(** The example target under the three modes. *)
Lemma failingFirst_resolves debug force :
  resolveEach 2 rangeForwards (failingFirst debug force) 0
    (thisTarget (failingFirst debug force))
  = Some ["false"; "echo world"].
Proof. by vm_compute. Qed.

Lemma failingFirst_stops :
  observed (Execute noYaml "linux" plainString (list string) logRun
              2 rangeForwards (failingFirst false false) [])
  = Some (["false"],
          [("false", Some (library_error "exit status 1"))],
          Some (library_error "exit status 1")).
Proof. by vm_compute. Qed.

Lemma failingFirst_forced :
  observed (Execute noYaml "linux" plainString (list string) logRun
              2 rangeForwards (failingFirst false true) [])
  = Some (["false"; "echo world"],
          [("false", Some (library_error "exit status 1"));
           ("echo world", None)],
          None).
Proof. by vm_compute. Qed.



(** ** Choosing the target *)

Lemma resolveEntries_ext (f g : nat → string → option string) i kvs s :
  (∀ j v, f j v = g j v) →
  resolveEntries f i kvs s = resolveEntries g i kvs s.
Proof.
  intros Hfg. revert i s. induction kvs as [|[k v] kvs IH]; intros i s; cbn; [done|].
  rewrite Hfg. destruct (strings.Contains s _); [|done].
  by destruct (g i v).
Qed.

(** Resolution does not read [c.target]. *)
Lemma withResolvedArgs_set_target fuel range path s t c :
  withResolvedArgs fuel range path s (set_target t c)
  = withResolvedArgs fuel range path s c.
Proof.
  revert path s. induction fuel as [|n IH]; intros path s; [done|].
  rewrite !withResolvedArgs_S. cbn [argReplacements set_target].
  apply resolveEntries_ext. intros j v. apply IH.
Qed.

Lemma resolveEach_set_target fuel range t c j commands :
  resolveEach fuel range (set_target t c) j commands
  = resolveEach fuel range c j commands.
Proof.
  revert j. induction commands as [|v rest IH]; intros j; cbn; [done|].
  by rewrite withResolvedArgs_set_target, IH.
Qed.

(** Neither does loading: it hands the name on as it found it. *)
Lemma getTargets_set_target os_Open yaml_Unmarshal t c :
  getTargets os_Open yaml_Unmarshal (set_target t c)
  = match getTargets os_Open yaml_Unmarshal c with
    | Returns (Ok (targets, c')) => Returns (Ok (targets, set_target t c'))
    | other => other
    end.
Proof.
  unfold getTargets. cbn [defaultTargetsFilePath targetsFilePath set_target].
  destruct (getTargetsFile _ _ (defaultTargetsFilePath c)) as [D|?],
           (getTargetsFile _ _ (targetsFilePath c)) as [T|?]; [| | |done].
  all: cbn -[assignEach overwrite];
       repeat (destruct (assignEach _ _); cbn -[assignEach overwrite]); done.
Qed.

Lemma observed_emit {World} evs (r : option (World * list event * option error)) :
  observed (emit World evs r)
  = (λ '(w, rs, err), (w, runs evs ++ rs, err)) <$> observed r.
Proof.
  destruct r as [[[w out] err]|]; [|done]. cbn -[runs]. by rewrite runs_app.
Qed.

(** [Execute] reads [c.target] only for the text it prints. *)
Lemma runEach_set_target cmd_String World cmd_Run fuel range t c executor
    j commands w :
  observed (runEach cmd_String World cmd_Run fuel range (set_target t c)
              executor j commands w)
  = observed (runEach cmd_String World cmd_Run fuel range c
                executor j commands w).
Proof.
  revert j w. induction commands as [|v rest IH]; intros j w; [done|].
  cbn [runEach]. rewrite withResolvedArgs_set_target.
  destruct (withResolvedArgs fuel range [j] v c) as [command|]; [|done].
  cbn [debug force set_target target]. destruct (debug c).
  { by rewrite !observed_emit, IH. }
  destruct (cmd_Run executor command w) as [[w1 stderr] [e|]].
  - destruct (force c); cbn [negb]; [|done].
    by rewrite !observed_emit, IH.
  - by rewrite !observed_emit, IH.
Qed.

Lemma Execute_set_target yaml_Marshal GOOS cmd_String World cmd_Run
    fuel range t c w :
  observed (Execute yaml_Marshal GOOS cmd_String World cmd_Run
              fuel range (set_target t c) w)
  = observed (Execute yaml_Marshal GOOS cmd_String World cmd_Run
                fuel range c w).
Proof.
  unfold Execute. rewrite !observed_emit.
  cbn [thisTarget debug set_target]. rewrite runEach_set_target.
  by destruct (debug c).
Qed.

(** [C8] The commands to execute are those found in the merged
    definitions under the target name as it was typed: the definitions are
    loaded and searched without the resolved name, which is only stored in
    [c.target], and [Execute] reads [c.target] for nothing but the text it
    prints.  A name that is not in the merged definitions gives the error
    that names it as it was typed. *)
Theorem target_is_looked_up_unresolved
    (os_Open : string → result string)
    (yaml_Unmarshal : string → result Targets)
    (os_Executable : result string)
    (fuel : nat) (range : ranging) (c : Config) (args : list string)
    (targetName : string) (runArgs : gmap string string) (resolved : string)
    (targets : Targets) (c' : Config) :
  getTargetNameAndRunArgs os_Executable args
  = Returns (Ok (targetName, runArgs)) →
  withResolvedArgs fuel range [] targetName (set_argReplacements runArgs c)
  = Some resolved →
  getTargets os_Open yaml_Unmarshal (set_argReplacements runArgs c)
  = Returns (Ok (targets, c')) →
  ArgsValidator os_Open yaml_Unmarshal os_Executable fuel range c args
  = Some (match mapaccess (T_Targets targets) targetName with
          | Some commands =>
              Returns (Ok (set_thisTarget commands (set_target resolved c')))
          | None =>
              Returns (Err (errors_New
                ("target " +:+ targetName +:+ " does not exist")))
          end)
  ∧ ∀ yaml_Marshal GOOS cmd_String World cmd_Run fuel' range' shownName cfg
      (w : World),
      observed (Execute yaml_Marshal GOOS cmd_String World cmd_Run
                  fuel' range' (set_target shownName cfg) w)
      = observed (Execute yaml_Marshal GOOS cmd_String World cmd_Run
                    fuel' range' cfg w).
Proof.
  intros Hparse Hname Hload. split.
  - unfold ArgsValidator. rewrite Hparse, Hname.
    rewrite getTargets_set_target, Hload.
    by destruct (mapaccess (T_Targets targets) targetName).
  - intros. apply Execute_set_target.
Qed.

(** Typed as [$T T=build], the target run is the one named [$T] in the
    file, not [build]; [build] is only the name shown. *)
Lemma target_lookup_witness :
  ArgsValidator lookupFiles lookupYaml (Ok "/usr/bin/torto")
    2 rangeForwards (configWith ∅ false false) ["$T"; "T=build"]
  = Some (Returns (Ok (mkConfig "build" lookupVars false false
                         "torto.yml" "~/torto.yml" ["echo literal"]))).
Proof.
  refine (proj1 (target_is_looked_up_unresolved
                   lookupFiles lookupYaml (Ok "/usr/bin/torto")
                   2 rangeForwards (configWith ∅ false false)
                   ["$T"; "T=build"] "$T" lookupVars "build" lookupTargets
                   (configWith lookupVars false false) _ _ _)).
  - vm_compute. reflexivity.
  - vm_compute. reflexivity.
  - vm_compute. reflexivity.
Defined.

(** Typed as [$U U=build], the name [$U] is not found although [build]
    is defined, and the error names [$U]. *)
Lemma unknown_target_is_named_as_typed :
  ArgsValidator lookupFiles lookupYaml (Ok "/usr/bin/torto")
    2 rangeForwards (configWith ∅ false false) ["$U"; "U=build"]
  = Some (Returns (Err (errors_New "target $U does not exist"))).
Proof. by vm_compute. Qed.

(** * Further properties *)

(** ** The string operations *)

Lemma HasPrefix_nil s : strings.HasPrefix s "" = true.
Proof. by destruct s. Qed.

Lemma HasPrefix_cons b s a p :
  strings.HasPrefix (String b s) (String a p)
  = if Ascii.eqb a b then strings.HasPrefix s p else false.
Proof. reflexivity. Qed.

Lemma HasPrefix_spec s p :
  strings.HasPrefix s p = true ↔ ∃ post, s = p +:+ post.
Proof.
  revert s. induction p as [|a p IH]; intros s.
  { rewrite HasPrefix_nil. split; [by exists s|done]. }
  destruct s as [|b s].
  { split; [done|]. by intros [post [=]]. }
  rewrite HasPrefix_cons. destruct (Ascii.eqb a b) eqn:E.
  - apply Ascii.eqb_eq in E as ->. rewrite IH. split.
    + intros [post ->]. by exists post.
    + intros [post [= ->]]. by exists post.
  - apply Ascii.eqb_neq in E. split; [done|]. intros [post [= ? _]]. done.
Qed.

Lemma Contains_unfold s sub :
  strings.Contains s sub
  = if strings.HasPrefix s sub then true
    else match s with
         | EmptyString => false
         | String _ s' => strings.Contains s' sub
         end.
Proof. by destruct s. Qed.

(** [X1] [strings.Contains] as modelled holds exactly when the text is a
    prefix, the substring and a suffix put together: an occurrence of a
    token is an occurrence at some offset, word boundaries or not. *)
Theorem Contains_occurrence (s sub : string) :
  strings.Contains s sub = true ↔ ∃ pre post, s = pre +:+ sub +:+ post.
Proof.
  split.
  - induction s as [|b s IH]; rewrite Contains_unfold;
      destruct (strings.HasPrefix _ sub) eqn:E; try done.
    + apply HasPrefix_spec in E as [post ->]. by exists "", post.
    + apply HasPrefix_spec in E as [post ->]. by exists "", post.
    + intros H. destruct (IH H) as (pre & post & ->). by exists (String b pre), post.
  - intros (pre & post & ->). induction pre as [|b pre IH].
    + rewrite Contains_unfold.
      assert (strings.HasPrefix ("" +:+ sub +:+ post) sub = true) as ->; [|done].
      apply HasPrefix_spec. by exists post.
    + rewrite Contains_unfold. destruct (strings.HasPrefix _ sub); [done|].
      exact IH.
Qed.

Lemma replaceFrom_absent old new s :
  strings.Contains s old = false → strings.replaceFrom old new 0 s = s.
Proof.
  induction s as [|b s IH]; [done|].
  rewrite Contains_unfold. destruct (strings.HasPrefix (String b s) old) eqn:E; [done|].
  intros H. cbn [strings.replaceFrom]. rewrite E. by rewrite IH.
Qed.

Lemma ReplaceAll_none s old new :
  old ≠ "" →
  strings.Contains s old = false →
  strings.ReplaceAll s old new = s.
Proof.
  intros Hne H. destruct old as [|a old]; [done|].
  by apply replaceFrom_absent.
Qed.

(** [X2] Replacing a substring that does not occur changes nothing, so
    the [strings.Contains] test in [withResolvedArgs] only decides whether
    the value of the variable is resolved, never what the text becomes. *)
Theorem ReplaceAll_absent (s old new : string) :
  old ≠ "" →
  strings.Contains s old = false →
  strings.ReplaceAll s old new = s.
Proof. apply ReplaceAll_none. Qed.

Lemma ReplaceAll_absent_witness :
  strings.ReplaceAll "echo hi" "$NAME" "world" = "echo hi".
Proof. by apply (ReplaceAll_absent "echo hi" "$NAME" "world"). Defined.

(** ** More on resolution *)

Lemma resolveEntries_self recur i kvs s k v :
  (∀ j, recur j v = None) →
  (k, v) ∈ kvs →
  (∀ v', (k, v') ∈ kvs → v' = v) →
  (∀ k' v', (k', v') ∈ kvs → k' ≠ k → strings.Contains s (token k') = false) →
  strings.Contains s (token k) = true →
  resolveEntries recur i kvs s = None.
Proof.
  intros Hrec. revert i. induction kvs as [|[k0 v0] kvs IH]; intros i Hin Hv Hs Hk.
  { by apply not_elem_of_nil in Hin. }
  cbn [resolveEntries]. fold (token k0).
  destruct (decide (k0 = k)) as [->|Hne].
  - by rewrite Hk, (Hv v0), Hrec by left.
  - rewrite (Hs k0 v0); [|left|done]. apply IH.
    + apply elem_of_cons in Hin as [[= ? _]|Hin]; done.
    + intros v' ?. apply Hv. by right.
    + intros k' v' ?. apply (Hs k' v'). by right.
    + done.
Qed.

Lemma withResolvedArgs_self range c k v s fuel path :
  lawful range →
  argReplacements c !! k = Some v →
  strings.Contains v (token k) = true →
  free (delete k (argReplacements c)) v →
  strings.Contains s (token k) = true →
  free (delete k (argReplacements c)) s →
  withResolvedArgs fuel range path s c = None.
Proof.
  intros L Hk Hv Fv. revert s path.
  induction fuel as [|n IH]; intros s path Hs Fs; [done|].
  rewrite withResolvedArgs_S. apply (resolveEntries_self _ _ _ _ k v).
  - intros j. by apply IH.
  - rewrite (L path). by apply elem_of_map_to_list.
  - intros v' Hin. apply (lawful_elem_of _ _ _ _ _ L) in Hin. congruence.
  - intros k' v' Hin Hne. apply Fs. exists v'.
    rewrite lookup_delete_ne by done. by eapply lawful_elem_of.
  - done.
Qed.

(** [X3] No cycle detection: when the value of a variable holds the
    variable's own token and no other token, resolving any text in which
    that token is the only one never ends, in every order and however deep
    the calls may nest. *)
Theorem self_reference_never_resolves
    (range : ranging) (c : Config) (k v s : string)
    (fuel : nat) (path : list nat) :
  lawful range →
  argReplacements c !! k = Some v →
  strings.Contains v (token k) = true →
  free (delete k (argReplacements c)) v →
  strings.Contains s (token k) = true →
  free (delete k (argReplacements c)) s →
  withResolvedArgs fuel range path s c = None.
Proof. apply withResolvedArgs_self. Qed.

Lemma self_reference_witness :
  withResolvedArgs 100 rangeForwards [] "run $A"
    (configWith selfVars false false) = None.
Proof.
  apply (self_reference_never_resolves rangeForwards
           (configWith selfVars false false) "A" "echo $A" "run $A" 100 []).
  - intros path m. reflexivity.
  - vm_compute. reflexivity.
  - vm_compute. reflexivity.
  - apply freeb_free. vm_compute. reflexivity.
  - vm_compute. reflexivity.
  - apply freeb_free. vm_compute. reflexivity.
Defined.

(** [X4] Where no value holds the token of a key, every text resolves
    and the calls nest at most two deep, in every order. *)
Theorem flat_maps_resolve_in_two_calls
    (range : ranging) (path : list nat) (fuel : nat) (c : Config) (s : string) :
  lawful range →
  flat (argReplacements c) →
  ∃ r, withResolvedArgs (S (S fuel)) range path s c = Some r
       ∧ reach (argReplacements c) s r.
Proof.
  intros L F. rewrite withResolvedArgs_S.
  assert (∀ kvs i t,
    (∀ j v, (j, v) ∈ kvs → argReplacements c !! j = Some v) →
    reach (argReplacements c) s t →
    ∃ r, resolveEntries
           (λ i v, withResolvedArgs (S fuel) range (i :: path) v c) i kvs t
         = Some r ∧ reach (argReplacements c) s r) as Hloop.
  { induction kvs as [|[j v] kvs IH]; intros i t Hin Ht; [by exists t|].
    cbn [resolveEntries]. fold (token j).
    assert (argReplacements c !! j = Some v) as Hj by (apply Hin; left).
    assert (∀ j' v', (j', v') ∈ kvs → argReplacements c !! j' = Some v')
      as Hin' by (intros j' v' ?; apply Hin; by right).
    destruct (strings.Contains t (token j)) eqn:Hc; [|by apply IH].
    rewrite withResolvedArgs_free; [|done|by eapply F].
    apply IH; [done|]. eapply reach_replace; eauto. constructor. }
  apply Hloop; [|constructor].
  intros j v. apply lawful_elem_of, L.
Qed.

Lemma flat_maps_witness :
  ∃ r, withResolvedArgs 2 rangeForwards [] "echo $FOOBAR" 
         (configWith prefixVars false false) = Some r
       ∧ reach prefixVars "echo $FOOBAR" r.
Proof.
  apply (flat_maps_resolve_in_two_calls rangeForwards [] 0
           (configWith prefixVars false false) "echo $FOOBAR").
  - intros path m. reflexivity.
  - intros k v Hk. apply freeb_free. cbn [argReplacements configWith] in Hk.
    unfold prefixVars in Hk.
    apply lookup_insert_Some in Hk as [[_ <-]|[_ Hk]]; [by vm_compute|].
    apply lookup_singleton_Some in Hk as [_ <-]. by vm_compute.
Defined.


(** ** More on parsing *)

Lemma parse_Ok_inv os_Executable programArgs targetName runArgs :
  getTargetNameAndRunArgs os_Executable programArgs
  = Returns (Ok (targetName, runArgs)) →
  ∃ path others,
    os_Executable = Ok path
    ∧ filter (λ a, assignment a = None) programArgs = targetName :: others
    ∧ runArgs = <["BIN" := path]>
                  (<["CMD" := strings.Join others " "]>
                     (list_to_map (reverse (omap assignment programArgs)))).
Proof.
  rewrite getTargetNameAndRunArgs_spec.
  destruct (filter _ programArgs) as [|t others]; [done|].
  destruct os_Executable as [path|e]; [|done].
  intros [= <- <-]. by exists path, others.
Qed.

(** [X6] The reserved names win over the caller: in every successful
    parse [BIN] is the path of the executable and [CMD] the arguments after
    the target name joined with spaces, even when [BIN=...] or [CMD=...]
    was passed. *)
Theorem reserved_names_are_overwritten
    (os_Executable : result string) (programArgs : list string)
    (targetName : string) (runArgs : gmap string string) :
  getTargetNameAndRunArgs os_Executable programArgs
  = Returns (Ok (targetName, runArgs)) →
  ∃ path others,
    os_Executable = Ok path
    ∧ filter (λ a, assignment a = None) programArgs = targetName :: others
    ∧ runArgs !! "BIN" = Some path
    ∧ runArgs !! "CMD" = Some (strings.Join others " ").
Proof.
  intros (path & others & HE & Hf & ->)%parse_Ok_inv.
  exists path, others. repeat split; [done..| |].
  - by rewrite lookup_insert_eq.
  - rewrite lookup_insert_ne by done. by rewrite lookup_insert_eq.
Qed.

Lemma reserved_names_witness :
  ∃ path others,
    Ok "/usr/bin/torto" = Ok path
    ∧ filter (λ a, assignment a = None) ["CMD=mine"; "build"; "BIN=x"; "a"; "b"]
      = "build" :: others
    ∧ ({[ "BIN" := "/usr/bin/torto"; "CMD" := "a b" ]} : gmap string string)
        !! "BIN" = Some path
    ∧ ({[ "BIN" := "/usr/bin/torto"; "CMD" := "a b" ]} : gmap string string)
        !! "CMD" = Some (strings.Join others " ").
Proof.
  apply (reserved_names_are_overwritten (Ok "/usr/bin/torto")
           ["CMD=mine"; "build"; "BIN=x"; "a"; "b"] "build").
  vm_compute. reflexivity.
Defined.

Lemma omap_assignment_None (l : list string) name :
  Forall (λ a, ∀ v, assignment a ≠ Some (name, v)) l →
  name ∉ (omap assignment l).*1.
Proof.
  induction 1 as [|a l Ha _ IH]; [apply not_elem_of_nil|].
  change (omap assignment (a :: l))
    with (match assignment a with
          | Some kv => kv :: omap assignment l
          | None => omap assignment l
          end).
  destruct (assignment a) as [[n v]|] eqn:E; [|done].
  cbn. rewrite elem_of_cons. intros [->|?]; [|done]. by apply (Ha v).
Qed.

(** [X7] A name passed more than once keeps its last value: the variable
    of an assignment after which no argument assigns the same name is bound
    to the value of that assignment (reserved names apart). *)
Theorem last_assignment_wins
    (os_Executable : result string) (before after : list string)
    (arg name value targetName : string) (runArgs : gmap string string) :
  assignment arg = Some (name, value) →
  Forall (λ a, ∀ v, assignment a ≠ Some (name, v)) after →
  name ≠ "CMD" → name ≠ "BIN" →
  getTargetNameAndRunArgs os_Executable (before ++ arg :: after)
  = Returns (Ok (targetName, runArgs)) →
  runArgs !! name = Some value.
Proof.
  intros Ha Hafter Hc Hb (path & others & _ & _ & ->)%parse_Ok_inv.
  rewrite !lookup_insert_ne by done.
  rewrite omap_app.
  change (omap assignment (arg :: after))
    with (match assignment arg with
          | Some kv => kv :: omap assignment after
          | None => omap assignment after
          end).
  rewrite Ha, reverse_app, reverse_cons, <-app_assoc, list_to_map_app.
  rewrite lookup_union_r.
  - cbn. by rewrite lookup_insert_eq.
  - apply not_elem_of_list_to_map_1. rewrite fmap_reverse, elem_of_reverse.
    by apply omap_assignment_None.
Qed.

Lemma last_assignment_witness :
  ({[ "X" := "5"; "Y" := "4"; "CMD" := ""; "BIN" := "/usr/bin/torto" ]}
     : gmap string string) !! "X" = Some "5".
Proof.
  apply (last_assignment_wins (Ok "/usr/bin/torto")
           ["X=3"; "build"] ["Y=4"] "X=5" "X" "5" "build").
  - vm_compute. reflexivity.
  - repeat constructor. intros v. vm_compute. discriminate.
  - discriminate.
  - discriminate.
  - vm_compute. reflexivity.
Defined.

(** [X8] A name that no argument assigns is not bound by parsing
    (reserved names apart). *)
Theorem unassigned_names_are_unbound
    (os_Executable : result string) (programArgs : list string)
    (name targetName : string) (runArgs : gmap string string) :
  Forall (λ a, ∀ v, assignment a ≠ Some (name, v)) programArgs →
  name ≠ "CMD" → name ≠ "BIN" →
  getTargetNameAndRunArgs os_Executable programArgs
  = Returns (Ok (targetName, runArgs)) →
  runArgs !! name = None.
Proof.
  intros Hnone Hc Hb (path & others & _ & _ & ->)%parse_Ok_inv.
  rewrite !lookup_insert_ne by done.
  apply not_elem_of_list_to_map_1. rewrite fmap_reverse, elem_of_reverse.
  by apply omap_assignment_None.
Qed.

Lemma unassigned_names_witness :
  ({[ "X" := "5"; "CMD" := ""; "BIN" := "/usr/bin/torto" ]}
     : gmap string string) !! "Y" = None.
Proof.
  apply (unassigned_names_are_unbound (Ok "/usr/bin/torto")
           ["X=5"; "build"] "Y" "build").
  - repeat constructor; intros v; vm_compute; discriminate.
  - discriminate.
  - discriminate.
  - vm_compute. reflexivity.
Defined.

(** [X9] The target is looked for before the executable: when every
    argument is an assignment, and so also when there is no argument, the
    parse fails with the missing-target error whether or not the path of
    the executable can be found. *)
Theorem missing_target_comes_first
    (os_Executable : result string) (programArgs : list string) :
  Forall (λ a, is_Some (assignment a)) programArgs →
  getTargetNameAndRunArgs os_Executable programArgs
  = Returns (Err (errors_New "target missing. check usage with -h")).
Proof.
  intros H. rewrite getTargetNameAndRunArgs_spec.
  assert (filter (λ a, assignment a = None) programArgs = []) as ->; [|done].
  induction H as [|a l [kv Ha] _ IH]; [done|].
  rewrite filter_cons, decide_False; [done|]. by rewrite Ha.
Qed.

Lemma missing_target_witness :
  getTargetNameAndRunArgs (Err (library_error "readlink: no such file"))
    ["X=1"; "Y=2"]
  = Returns (Err (errors_New "target missing. check usage with -h")).
Proof.
  apply (missing_target_comes_first
           (Err (library_error "readlink: no such file")) ["X=1"; "Y=2"]).
  repeat constructor; vm_compute; eauto.
Defined.

(** ** More on loading *)

Lemma assignEach_nil' {V} (dst : option (gmap string V)) :
  assignEach dst (map_to_list ∅) = Returns dst.
Proof. by rewrite map_to_list_empty. Qed.

(** [X10] Where both files load and the global one has both of its maps,
    the merge is local over global, key by key: a target or a variable of
    the local file is found with the local value, never the two lists
    joined, and any other is found as the global file has it. *)
Theorem merge_is_local_over_global
    (os_Open : string → result string)
    (yaml_Unmarshal : string → result Targets)
    (c : Config) (gt : gmap string (list string)) (gv : gmap string string)
    (lt : option (gmap string (list string)))
    (lv : option (gmap string string)) :
  getTargetsFile os_Open yaml_Unmarshal (defaultTargetsFilePath c)
  = Ok (mkTargets (Some gt) (Some gv)) →
  getTargetsFile os_Open yaml_Unmarshal (targetsFilePath c)
  = Ok (mkTargets lt lv) →
  ∃ targets c',
    getTargets os_Open yaml_Unmarshal c = Returns (Ok (targets, c'))
    ∧ (∀ k, mapaccess (T_Targets targets) k
            = match mapaccess lt k with
              | Some commands => Some commands
              | None => gt !! k
              end)
    ∧ (∀ k, mapaccess (T_Vars targets) k
            = match mapaccess lv k with
              | Some value => Some value
              | None => gv !! k
              end).
Proof.
  intros Hd Ht. rewrite (getTargets_local_wins _ _ _ _ _ _ _ Hd Ht).
  eexists _, _. split; [reflexivity|]. cbn [T_Targets T_Vars mapaccess].
  split; intros k; rewrite lookup_union, mapaccess_contents.
  - by destruct (contents lt !! k), (gt !! k).
  - by destruct (contents lv !! k), (gv !! k).
Qed.

Lemma merge_witness :
  ∃ targets c',
    getTargets mergeFiles mergeYaml (configWith ∅ false false)
    = Returns (Ok (targets, c'))
    ∧ (∀ k, mapaccess (T_Targets targets) k
            = match mapaccess (Some {[ "build" := ["echo b"] ]}) k with
              | Some commands => Some commands
              | None => ({[ "build" := ["echo a"]; "clean" := ["rm -r out"] ]}
                           : gmap string (list string)) !! k
              end)
    ∧ (∀ k, mapaccess (T_Vars targets) k
            = match mapaccess (Some {[ "X" := "2" ]}) k with
              | Some value => Some value
              | None => ({[ "X" := "1" ]} : gmap string string) !! k
              end).
Proof.
  apply (merge_is_local_over_global mergeFiles mergeYaml
           (configWith ∅ false false)).
  - vm_compute. reflexivity.
  - vm_compute. reflexivity.
Defined.

(** [X11] [getTargets] panics in exactly one situation: the global file
    loaded, and it lacks the [targets] map while the local file has a
    target, or it lacks the [vars] map while the local file has a
    variable.  In particular it never panics when the global file failed
    to load. *)
Theorem getTargets_panics_exactly_on_a_nil_global_map
    (os_Open : string → result string)
    (yaml_Unmarshal : string → result Targets)
    (c : Config) (msg : string) :
  getTargets os_Open yaml_Unmarshal c = Panics msg
  ↔ msg = "assignment to entry in nil map"
    ∧ ∃ D T,
        getTargetsFile os_Open yaml_Unmarshal (defaultTargetsFilePath c) = Ok D
        ∧ getTargetsFile os_Open yaml_Unmarshal (targetsFilePath c) = Ok T
        ∧ ((T_Targets D = None ∧ contents (T_Targets T) ≠ ∅)
           ∨ (T_Vars D = None ∧ contents (T_Vars T) ≠ ∅)).
Proof.
  unfold getTargets.
  destruct (getTargetsFile os_Open yaml_Unmarshal (defaultTargetsFilePath c))
    as [[dt dv]|e1],
    (getTargetsFile os_Open yaml_Unmarshal (targetsFilePath c)) as [[tt tv]|e2].
  - cbn [T_Targets T_Vars]. rewrite !assignEach_entries.
    destruct dt as [gt|], dv as [gv|]; cbn -[contents].
    + split; [done|]. by intros (_ & D & T & [= <-] & _ & [[? _]|[? _]]).
    + destruct (decide (contents tv = ∅)) as [E|E]; cbn -[contents].
      * split; [done|].
        by intros (_ & D & T & [= <-] & [= <-] & [[? _]|[_ ?]]).
      * split; [intros [= <-]|by intros [-> _]].
        split; [done|]. eexists _, _. repeat split. by right.
    + destruct (decide (contents tt = ∅)) as [E|E]; cbn -[contents].
      * split; [done|].
        by intros (_ & D & T & [= <-] & [= <-] & [[_ ?]|[? _]]).
      * split; [intros [= <-]|by intros [-> _]].
        split; [done|]. eexists _, _. repeat split. by left.
    + destruct (decide (contents tt = ∅)) as [E|E]; cbn -[contents].
      * destruct (decide (contents tv = ∅)) as [E'|E']; cbn -[contents].
        -- split; [done|].
           by intros (_ & D & T & [= <-] & [= <-] & [[_ ?]|[_ ?]]).
        -- split; [intros [= <-]|by intros [-> _]].
           split; [done|]. eexists _, _. repeat split. by right.
      * split; [intros [= <-]|by intros [-> _]].
        split; [done|]. eexists _, _. repeat split. by left.
  - cbn -[assignEach]. rewrite !assignEach_nil'. cbn.
    split; [done|]. by intros (_ & D & T & _ & [=] & _).
  - cbn -[assignEach entries]. rewrite !assignEach_entries. cbn.
    split; [done|]. by intros (_ & D & T & [=] & _).
  - split; [done|]. by intros (_ & D & T & [=] & _).
Qed.

Lemma getTargets_panic_witness :
  getTargets greetingFiles greetingYaml (configWith ∅ false false)
  = Panics "assignment to entry in nil map".
Proof.
  apply (proj2 (getTargets_panics_exactly_on_a_nil_global_map
                  greetingFiles greetingYaml (configWith ∅ false false)
                  "assignment to entry in nil map")).
  split; [reflexivity|].
  exists (mkTargets None (Some {[ "GREETING" := "hi" ]})),
         (mkTargets (Some {[ "hello" := ["echo $GREETING $NAME"] ]}) None).
  split; [vm_compute; reflexivity|]. split; [vm_compute; reflexivity|].
  left. split; [reflexivity|]. cbn. apply insert_non_empty.
Defined.

(** [X12] The loops that copy one map into another give the same map in
    whatever order Go ranges over the source: the source laid over the
    destination. *)
Theorem merge_loop_ignores_the_order {V : Type}
    (src dst : gmap string V) (kvs : list (string * V)) :
  kvs ≡ₚ map_to_list src →
  assignEach (Some dst) kvs = Returns (Some (src ∪ dst)).
Proof.
  intros P. rewrite assignEach_Some. by rewrite (overwrite_union src).
Qed.

Lemma merge_loop_witness :
  assignEach (Some {[ "FOO" := "0" ]}) (reverse (map_to_list prefixVars))
  = Returns (Some (prefixVars ∪ {[ "FOO" := "0" ]})).
Proof.
  apply (merge_loop_ignores_the_order prefixVars {[ "FOO" := "0" ]}).
  apply reverse_Permutation.
Defined.

(** ** More on running the commands *)

Section MoreRunning.

Variable yaml_Marshal : Config → string.
Variable GOOS : string.
Variable cmd_String : string → string → string.
Variable World : Type.
Variable cmd_Run : string → string → World → World * string * option error.

(** [X13] Debug mode is a dry run: [Execute] prints the configuration and
    one line per command, runs nothing, leaves the machine as it was and
    returns nil, whatever [force] is. *)
Theorem debug_is_a_dry_run
    (fuel : nat) (range : ranging) (c : Config) (w : World)
    (resolved : list string) :
  debug c = true →
  resolveEach fuel range c 0 (thisTarget c) = Some resolved →
  Execute yaml_Marshal GOOS cmd_String World cmd_Run fuel range c w
  = Some (w,
          Printed (yaml_Marshal c)
          :: (shown cmd_String (executorOf GOOS) <$> resolved),
          None).
Proof.
  intros Hd H. unfold Execute. fold (executorOf GOOS).
  by rewrite Hd, (runEach_debug _ _ _ _ _ _ _ _ _ _ _ Hd H).
Qed.

(** [X14] Commands are run in the order of the target and none is
    skipped: in every mode the commands that were run are an initial part
    of the resolved commands of the target. *)
Theorem commands_run_in_order
    (fuel : nat) (range : ranging) (c : Config) (w : World)
    (resolved : list string) :
  resolveEach fuel range c 0 (thisTarget c) = Some resolved →
  ∃ w' out err,
    Execute yaml_Marshal GOOS cmd_String World cmd_Run fuel range c w
    = Some (w', out, err)
    ∧ (runs out).*1 `prefix_of` resolved.
Proof.
  intros H. destruct (Execute_modes yaml_Marshal GOOS cmd_String World cmd_Run
                        fuel range c w resolved H)
    as (w' & out & err & HE & Hm).
  exists w', out, err. split; [done|].
  destruct (debug c); [|destruct (force c)].
  - destruct Hm as (_ & _ & ->).
    assert (runs (Printed (yaml_Marshal c)
                  :: (shown cmd_String (executorOf GOOS) <$> resolved)) = [])
      as -> by (cbn; clear; by induction resolved).
    apply prefix_nil.
  - destruct Hm as (_ & ->). done.
  - destruct Hm as [[_ ->]|(before & cmd & after & e & -> & -> & _)].
    + rewrite <-list_fmap_compose.
      assert (fst ∘ passed = id) as -> by done. by rewrite list_fmap_id.
    + rewrite fmap_app, <-list_fmap_compose.
      assert (fst ∘ passed = id) as -> by done. rewrite list_fmap_id. cbn.
      exists after. by rewrite <-app_assoc.
Qed.

Lemma runEach_executor fuel range c executor j commands w w' out err :
  runEach cmd_String World cmd_Run fuel range c executor j commands w
  = Some (w', out, err) →
  Forall (ranWith executor) out.
Proof.
  revert j w w' out err. induction commands as [|v rest IH];
    intros j w w' out err; cbn [runEach].
  { by intros [= _ <- _]. }
  destruct (withResolvedArgs fuel range [j] v c) as [command|]; [|done].
  destruct (debug c).
  { destruct (runEach _ _ _ _ _ _ _ _ _ _) as [[[w1 out1] err1]|] eqn:E; [|done].
    intros [= _ <- _]. constructor; [done|]. by eapply IH. }
  destruct (cmd_Run executor command w) as [[w1 stderr] [e|]].
  - destruct (force c); cbn [negb].
    + destruct (runEach _ _ _ _ _ _ _ _ _ _) as [[[w2 out2] err2]|] eqn:E; [|done].
      intros [= _ <- _]. repeat (constructor; [done|]). by eapply IH.
    + intros [= _ <- _]. by repeat constructor.
  - destruct (runEach _ _ _ _ _ _ _ _ _ _) as [[[w2 out2] err2]|] eqn:E; [|done].
    intros [= _ <- _]. constructor; [done|]. by eapply IH.
Qed.

(** [X15] One shell for the whole run: every command is run through
    [powershell] when [runtime.GOOS] is [windows], and through [sh] on any
    other system. *)
Theorem every_command_runs_in_the_shell_of_the_system
    (fuel : nat) (range : ranging) (c : Config) (w w' : World)
    (out : list event) (err : option error) :
  Execute yaml_Marshal GOOS cmd_String World cmd_Run fuel range c w
  = Some (w', out, err) →
  Forall (ranWith (if String.eqb GOOS "windows" then "powershell" else "sh"))
         out.
Proof.
  unfold Execute.
  destruct (runEach _ _ _ _ _ _ _ _ _ _) as [[[w1 out1] err1]|] eqn:E; [|done].
  intros [= _ <- _]. apply Forall_app. split.
  - destruct (debug c); by repeat constructor.
  - by eapply runEach_executor.
Qed.



End MoreRunning.

(** The example target in debug mode, on a machine with a history. *)
Lemma debug_witness :
  Execute noYaml "linux" plainString (list string) logRun
    2 rangeForwards (failingFirst true false) ["before"]
  = Some (["before"],
          Printed (noYaml (failingFirst true false))
          :: (shown plainString (executorOf "linux")
                <$> ["false"; "echo world"]),
          None).
Proof.
  apply (debug_is_a_dry_run noYaml "linux" plainString (list string) logRun
           2 rangeForwards (failingFirst true false) ["before"]
           ["false"; "echo world"]).
  - reflexivity.
  - vm_compute. reflexivity.
Defined.

Lemma run_order_witness :
  ∃ w' out err,
    Execute noYaml "linux" plainString (list string) logRun
      2 rangeForwards (failingFirst false false) [] = Some (w', out, err)
    ∧ (runs out).*1 `prefix_of` ["false"; "echo world"].
Proof.
  apply (commands_run_in_order noYaml "linux" plainString (list string) logRun
           2 rangeForwards (failingFirst false false) []
           ["false"; "echo world"]).
  vm_compute. reflexivity.
Defined.

Lemma shell_witness :
  Forall (ranWith "powershell")
    [Ran "powershell" "false" (Some (library_error "exit status 1"));
     Printed ("greet: error executing 'false': " +:+ String LF "");
     Printed ("exit status 1" +:+ String LF "");
     Ran "powershell" "echo world" None].
Proof.
  apply (every_command_runs_in_the_shell_of_the_system
           noYaml "windows" plainString (list string) logRun
           2 rangeForwards (failingFirst false true) []
           ["false"; "echo world"]
           _ None).
  vm_compute. reflexivity.
Defined.


(** ** More on choosing the target *)

(** [X17] What a successful validation leaves: the resolved name in
    [target], the merged file variables laid over the parsed arguments in
    [argReplacements] (whatever [c] held there before is dropped), the
    commands found under the typed name in [thisTarget], and the flags and
    the two paths as they were. *)
Theorem validation_sets_three_fields
    (os_Open : string → result string)
    (yaml_Unmarshal : string → result Targets)
    (os_Executable : result string)
    (fuel : nat) (range : ranging) (c c' : Config) (args : list string) :
  ArgsValidator os_Open yaml_Unmarshal os_Executable fuel range c args
  = Some (Returns (Ok c')) →
  ∃ targetName runArgs targets c2,
    getTargetNameAndRunArgs os_Executable args
    = Returns (Ok (targetName, runArgs))
    ∧ withResolvedArgs fuel range [] targetName (set_argReplacements runArgs c)
      = Some (target c')
    ∧ getTargets os_Open yaml_Unmarshal
        (set_target (target c') (set_argReplacements runArgs c))
      = Returns (Ok (targets, c2))
    ∧ mapaccess (T_Targets targets) targetName = Some (thisTarget c')
    ∧ argReplacements c' = contents (T_Vars targets) ∪ runArgs
    ∧ debug c' = debug c ∧ force c' = force c
    ∧ targetsFilePath c' = targetsFilePath c
    ∧ defaultTargetsFilePath c' = defaultTargetsFilePath c.
Proof.
  unfold ArgsValidator.
  destruct (getTargetNameAndRunArgs os_Executable args)
    as [[[targetName runArgs]|e]|msg]; [|done..].
  destruct (withResolvedArgs fuel range [] targetName _) as [resolved|] eqn:Hr;
    [|done].
  destruct (getTargets os_Open yaml_Unmarshal _) as [[[targets c2]|e]|msg] eqn:Hg;
    [|done..].
  destruct (mapaccess (T_Targets targets) targetName) as [found|] eqn:Hf; [|done].
  intros [= <-]. exists targetName, runArgs, targets, c2.
  pose proof (getTargets_argReplacements _ _ _ _ _ Hg) as ->.
  cbn. by repeat split.
Qed.

Lemma validation_witness :
  ∃ targetName runArgs targets c2,
    getTargetNameAndRunArgs (Ok "/usr/bin/torto") ["$T"; "T=build"]
    = Returns (Ok (targetName, runArgs))
    ∧ withResolvedArgs 2 rangeForwards [] targetName
        (set_argReplacements runArgs (configWith ∅ true true))
      = Some (target (mkConfig "build" lookupVars true true
                        "torto.yml" "~/torto.yml" ["echo literal"]))
    ∧ getTargets lookupFiles lookupYaml
        (set_target (target (mkConfig "build" lookupVars true true
                               "torto.yml" "~/torto.yml" ["echo literal"]))
           (set_argReplacements runArgs (configWith ∅ true true)))
      = Returns (Ok (targets, c2))
    ∧ mapaccess (T_Targets targets) targetName
      = Some (thisTarget (mkConfig "build" lookupVars true true
                            "torto.yml" "~/torto.yml" ["echo literal"]))
    ∧ argReplacements (mkConfig "build" lookupVars true true
                         "torto.yml" "~/torto.yml" ["echo literal"])
      = contents (T_Vars targets) ∪ runArgs
    ∧ debug (mkConfig "build" lookupVars true true
               "torto.yml" "~/torto.yml" ["echo literal"])
      = debug (configWith ∅ true true)
    ∧ force (mkConfig "build" lookupVars true true
               "torto.yml" "~/torto.yml" ["echo literal"])
      = force (configWith ∅ true true)
    ∧ targetsFilePath (mkConfig "build" lookupVars true true
                         "torto.yml" "~/torto.yml" ["echo literal"])
      = targetsFilePath (configWith ∅ true true)
    ∧ defaultTargetsFilePath (mkConfig "build" lookupVars true true
                                "torto.yml" "~/torto.yml" ["echo literal"])
      = defaultTargetsFilePath (configWith ∅ true true).
Proof.
  apply (validation_sets_three_fields lookupFiles lookupYaml
           (Ok "/usr/bin/torto") 2 rangeForwards (configWith ∅ true true)
           (mkConfig "build" lookupVars true true
              "torto.yml" "~/torto.yml" ["echo literal"])
           ["$T"; "T=build"]).
  vm_compute. reflexivity.
Defined.

(** [X18] A self-referential argument hangs the validation before any
    file is read: when the typed target name holds the token of a caller
    variable whose value holds its own token (and neither holds another
    token), the validator never returns, whatever the files are. *)
Theorem validation_hangs_on_a_self_reference
    (os_Open : string → result string)
    (yaml_Unmarshal : string → result Targets)
    (os_Executable : result string)
    (fuel : nat) (range : ranging) (c : Config) (args : list string)
    (targetName : string) (runArgs : gmap string string) (k v : string) :
  lawful range →
  getTargetNameAndRunArgs os_Executable args
  = Returns (Ok (targetName, runArgs)) →
  runArgs !! k = Some v →
  strings.Contains v (token k) = true →
  free (delete k runArgs) v →
  strings.Contains targetName (token k) = true →
  free (delete k runArgs) targetName →
  ArgsValidator os_Open yaml_Unmarshal os_Executable fuel range c args = None.
Proof.
  intros L Hparse Hk Hv Fv Ht Ft. unfold ArgsValidator. rewrite Hparse.
  by rewrite (withResolvedArgs_self range _ k v targetName fuel []).
Qed.

Lemma validation_hang_witness :
  ArgsValidator lookupFiles lookupYaml (Ok "/usr/bin/torto")
    1000 rangeForwards (configWith ∅ false false) ["$A"; "A=$A"] = None.
Proof.
  apply (validation_hangs_on_a_self_reference lookupFiles lookupYaml
           (Ok "/usr/bin/torto") 1000 rangeForwards (configWith ∅ false false)
           ["$A"; "A=$A"] "$A"
           {[ "A" := "$A"; "CMD" := ""; "BIN" := "/usr/bin/torto" ]}
           "A" "$A").
  - intros path m. reflexivity.
  - vm_compute. reflexivity.
  - vm_compute. reflexivity.
  - vm_compute. reflexivity.
  - apply freeb_free. vm_compute. reflexivity.
  - vm_compute. reflexivity.
  - apply freeb_free. vm_compute. reflexivity.
Defined.

(** ** The replacement, the single variable and the machine *)

Lemma replaceFrom_skip old new y s :
  strings.replaceFrom old new (String.length y) (y +:+ s)
  = strings.replaceFrom old new 0 s.
Proof.
  induction y as [|b y IH]; [done|].
  rewrite append_cons. cbn [String.length strings.replaceFrom]. exact IH.
Qed.

Lemma ReplaceAll_at old new s :
  old ≠ "" →
  strings.ReplaceAll (old +:+ s) old new = new +:+ strings.ReplaceAll s old new.
Proof.
  intros Hne. destruct old as [|a old]; [done|].
  cbn [strings.ReplaceAll]. rewrite append_cons. cbn [strings.replaceFrom].
  assert (strings.HasPrefix (String a (old +:+ s)) (String a old) = true) as ->.
  { apply HasPrefix_spec. by exists s. }
  f_equal. cbn [String.length]. rewrite Nat.sub_1_r. cbn [Nat.pred].
  apply replaceFrom_skip.
Qed.

(** [X19] [strings.ReplaceAll] as modelled replaces from the left and
    does not look into what it has put in place: at an occurrence of a
    non-empty [old] the replacement is emitted and the scan goes on behind
    the occurrence; elsewhere one byte is copied. *)
Theorem ReplaceAll_scans_from_the_left (old new : string) :
  old ≠ "" →
  (∀ s, strings.ReplaceAll (old +:+ s) old new
        = new +:+ strings.ReplaceAll s old new)
  ∧ (∀ b s, strings.HasPrefix (String b s) old = false →
            strings.ReplaceAll (String b s) old new
            = String b (strings.ReplaceAll s old new)).
Proof.
  intros Hne. split; [intros s; by apply ReplaceAll_at|].
  destruct old as [|a old]; [done|].
  intros b s H. cbn [strings.ReplaceAll strings.replaceFrom]. by rewrite H.
Qed.

Lemma ReplaceAll_witness :
  strings.ReplaceAll ("$X" +:+ " and $X") "$X" "1"
  = "1" +:+ strings.ReplaceAll " and $X" "$X" "1".
Proof.
  apply (proj1 (ReplaceAll_scans_from_the_left "$X" "1" ltac:(discriminate))).
Defined.

(** [X20] The plain case of a substitution: when the token of one
    variable is the only token in a text, its value holds no token and the
    text after the replacement holds none either, the text resolves to
    itself with every occurrence of the token replaced by the value, in
    every order. *)
Theorem single_variable_is_substituted
    (fuel : nat) (range : ranging) (path : list nat) (c : Config)
    (s k v : string) :
  lawful range →
  argReplacements c !! k = Some v →
  free (argReplacements c) v →
  free (delete k (argReplacements c)) s →
  strings.Contains s (token k) = true →
  free (argReplacements c) (strings.ReplaceAll s (token k) v) →
  withResolvedArgs (S (S fuel)) range path s c
  = Some (strings.ReplaceAll s (token k) v).
Proof. apply withResolvedArgs_single. Qed.

Lemma single_variable_witness :
  withResolvedArgs 2 rangeBackwards [] "echo $NAME, $NAME!"
    (configWith greetingVars false false)
  = Some (strings.ReplaceAll "echo $NAME, $NAME!" (token "NAME") "world").
Proof.
  apply (single_variable_is_substituted 0 rangeBackwards []
           (configWith greetingVars false false)
           "echo $NAME, $NAME!" "NAME" "world").
  - intros path m. apply reverse_Permutation.
  - vm_compute. reflexivity.
  - apply freeb_free. vm_compute. reflexivity.
  - apply freeb_free. vm_compute. reflexivity.
  - vm_compute. reflexivity.
  - apply freeb_free. vm_compute. reflexivity.
Defined.

(** [X21] Loading changes nothing of the configuration but its
    variables, and it never unbinds one: every name bound before the call
    is bound after it. *)
Theorem loading_keeps_the_configuration
    (os_Open : string → result string)
    (yaml_Unmarshal : string → result Targets)
    (c c' : Config) (targets : Targets) :
  getTargets os_Open yaml_Unmarshal c = Returns (Ok (targets, c')) →
  target c' = target c ∧ debug c' = debug c ∧ force c' = force c
  ∧ targetsFilePath c' = targetsFilePath c
  ∧ defaultTargetsFilePath c' = defaultTargetsFilePath c
  ∧ thisTarget c' = thisTarget c
  ∧ ∀ k, is_Some (argReplacements c !! k) → is_Some (argReplacements c' !! k).
Proof.
  intros ->%getTargets_argReplacements. cbn. repeat split.
  intros k [v Hk]. rewrite lookup_union.
  destruct (contents (T_Vars targets) !! k); rewrite Hk; by eexists.
Qed.

Lemma loading_keeps_witness :
  target (configWith (<[ "X" := "2" ]> callerVars) false false)
  = target callerConfig
  ∧ debug (configWith (<[ "X" := "2" ]> callerVars) false false)
    = debug callerConfig
  ∧ force (configWith (<[ "X" := "2" ]> callerVars) false false)
    = force callerConfig
  ∧ targetsFilePath (configWith (<[ "X" := "2" ]> callerVars) false false)
    = targetsFilePath callerConfig
  ∧ defaultTargetsFilePath (configWith (<[ "X" := "2" ]> callerVars) false false)
    = defaultTargetsFilePath callerConfig
  ∧ thisTarget (configWith (<[ "X" := "2" ]> callerVars) false false)
    = thisTarget callerConfig
  ∧ ∀ k, is_Some (argReplacements callerConfig !! k) →
         is_Some (argReplacements
                    (configWith (<[ "X" := "2" ]> callerVars) false false) !! k).
Proof.
  apply (loading_keeps_the_configuration precedenceFiles precedenceYaml
           callerConfig
           (configWith (<[ "X" := "2" ]> callerVars) false false)
           (mkTargets None (Some {[ "X" := "2" ]}))).
  vm_compute. reflexivity.
Defined.

Section Machine.

Variable cmd_String : string → string → string.
Variable World : Type.
Variable cmd_Run : string → string → World → World * string * option error.

Lemma machineAfter_cons executor command commands (w : World) :
  machineAfter cmd_Run executor (command :: commands) w
  = machineAfter cmd_Run executor commands (cmd_Run executor command w).1.1.
Proof. reflexivity. Qed.

Lemma runEach_machine fuel range c executor j commands w w' out err :
  runEach cmd_String World cmd_Run fuel range c executor j commands w
  = Some (w', out, err) →
  w' = machineAfter cmd_Run executor (runs out).*1 w.
Proof.
  revert j w w' out err. induction commands as [|v rest IH];
    intros j w w' out err; cbn [runEach].
  { by intros [= <- <- _]. }
  destruct (withResolvedArgs fuel range [j] v c) as [command|]; [|done].
  destruct (debug c).
  { destruct (runEach _ _ _ _ _ _ _ _ _ _) as [[[w1 out1] err1]|] eqn:E; [|done].
    intros [= <- <- _]. exact (IH _ _ _ _ _ E). }
  destruct (cmd_Run executor command w) as [[w1 stderr] [e|]] eqn:R.
  - destruct (force c); cbn [negb].
    + destruct (runEach _ _ _ _ _ _ _ _ _ _) as [[[w2 out2] err2]|] eqn:E; [|done].
      intros [= <- <- _].
      change (w2 = machineAfter cmd_Run executor
                     (command :: (runs out2).*1) w).
      rewrite machineAfter_cons, R. exact (IH _ _ _ _ _ E).
    + intros [= <- <- _].
      change (w1 = (cmd_Run executor command w).1.1). by rewrite R.
  - destruct (runEach _ _ _ _ _ _ _ _ _ _) as [[[w2 out2] err2]|] eqn:E; [|done].
    intros [= <- <- _].
    change (w2 = machineAfter cmd_Run executor
                   (command :: (runs out2).*1) w).
    rewrite machineAfter_cons, R. exact (IH _ _ _ _ _ E).
Qed.

(** [X22] Each command acts on the machine as the command before it left
    it: the machine after [Execute] is the machine it was given with the
    commands that were run applied one after the other. *)
Theorem commands_act_one_after_the_other
    (yaml_Marshal : Config → string) (GOOS : string)
    (fuel : nat) (range : ranging) (c : Config) (w w' : World)
    (out : list event) (err : option error) :
  Execute yaml_Marshal GOOS cmd_String World cmd_Run fuel range c w
  = Some (w', out, err) →
  w' = machineAfter cmd_Run (executorOf GOOS) (runs out).*1 w.
Proof.
  unfold Execute. fold (executorOf GOOS).
  destruct (runEach _ _ _ _ _ _ _ _ _ _) as [[[w1 out1] err1]|] eqn:E; [|done].
  intros [= <- <- _]. rewrite runs_app.
  assert (runs (if debug c then [Printed (yaml_Marshal c)] else []) = []) as ->
    by by destruct (debug c).
  by eapply runEach_machine.
Qed.

End Machine.

Lemma machine_witness :
  ["before"; "false"; "echo world"]
  = machineAfter logRun (executorOf "linux")
      (runs [Ran "sh" "false" (Some (library_error "exit status 1"));
             Printed ("greet: error executing 'false': " +:+ String LF "");
             Printed ("exit status 1" +:+ String LF "");
             Ran "sh" "echo world" None]).*1
      ["before"].
Proof.
  apply (commands_act_one_after_the_other plainString (list string) logRun
           noYaml "linux" 2 rangeForwards (failingFirst false true)
           ["before"] _ _ None).
  vm_compute. reflexivity.
Defined.

(** ** Keys that are prefixes of keys *)

Lemma append_nil_r s : s +:+ "" = s.
Proof. induction s as [|b s IH]; [done|]. by rewrite append_cons, IH. Qed.

Lemma append_ne_self k x : x ≠ "" → k ≠ k +:+ x.
Proof.
  intros Hx H. apply Hx. induction k as [|b k IH]; [done|].
  rewrite append_cons in H. injection H as H. by apply IH.
Qed.

Lemma Contains_token_prefix k x :
  strings.Contains (token (k +:+ x)) (token k) = true.
Proof. apply Contains_occurrence. by exists "", x. Qed.

Lemma Contains_self s : strings.Contains s s = true.
Proof. apply Contains_occurrence. exists "", "". by rewrite append_nil_r. Qed.

(** [X5] A token is taken wherever its characters stand, also at the
    head of a longer name, so the order of the loop decides between a key
    [K] and a longer key [KX] it is a prefix of.  With [K] and [KX] the
    only variables, their values without tokens, [X] without the token of
    [K], and the value of [K] followed by [X] without the token of [KX]:
    [$KX] resolves to the value of [KX] when the loop meets [KX] first,
    and to the value of [K] followed by [X] when it meets [K] first. *)
Theorem order_decides_between_prefix_keys
    (range : ranging) (path : list nat) (fuel : nat) (c : Config)
    (k x v1 v2 : string) :
  lawful range →
  x ≠ "" →
  argReplacements c = {[ k := v1; k +:+ x := v2 ]} →
  free (argReplacements c) v1 →
  free (argReplacements c) v2 →
  strings.Contains x (token k) = false →
  strings.Contains (v1 +:+ x) (token (k +:+ x)) = false →
  ∃ first second,
    range path (argReplacements c) = [first; second]
    ∧ withResolvedArgs (S (S fuel)) range path (token (k +:+ x)) c
      = Some (if decide (first.1 = k) then v1 +:+ x else v2).
Proof.
  intros L Hx Hm F1 F2 Hxk F3.
  pose proof (append_ne_self k x Hx) as Hne.
  assert ([(k, v1); (k +:+ x, v2)] ≡ₚ range path (argReplacements c)) as HP.
  { rewrite (L path), Hm, map_to_list_insert, map_to_list_singleton; [done|].
    by apply lookup_singleton_ne. }
  assert (is_Some (argReplacements c !! k)) as Hk
    by (rewrite Hm, lookup_insert_eq; by eexists).
  rewrite withResolvedArgs_S.
  apply Permutation_length_2_inv in HP as [-> | ->]; eexists _, _;
    (split; [reflexivity|]); cbn [resolveEntries fst]; fold (token k);
    fold (token (k +:+ x)).
  - assert (strings.ReplaceAll (token (k +:+ x)) (token k) v1 = v1 +:+ x) as HR.
    { change (token (k +:+ x)) with (token k +:+ x).
      rewrite ReplaceAll_at by done. by rewrite ReplaceAll_none. }
    rewrite Contains_token_prefix, (withResolvedArgs_free fuel) by done.
    rewrite !HR, F3. by rewrite decide_True.
  - assert (strings.ReplaceAll (token (k +:+ x)) (token (k +:+ x)) v2 = v2)
      as HR.
    { rewrite <-(append_nil_r (token (k +:+ x))) at 1.
      rewrite ReplaceAll_at by done. apply append_nil_r. }
    rewrite Contains_self, (withResolvedArgs_free fuel) by done.
    rewrite !HR, (F2 k) by done. by rewrite decide_False.
Qed.

Lemma prefix_keys_witness :
  ∃ first second,
    rangeBackwards [] prefixVars = [first; second]
    ∧ withResolvedArgs 2 rangeBackwards [] (token ("FOO" +:+ "BAR"))
        (configWith prefixVars false false)
      = Some (if decide (first.1 = "FOO") then "1" +:+ "BAR" else "2").
Proof.
  apply (order_decides_between_prefix_keys rangeBackwards [] 0
           (configWith prefixVars false false) "FOO" "BAR" "1" "2").
  - intros path m. apply reverse_Permutation.
  - discriminate.
  - reflexivity.
  - apply freeb_free. vm_compute. reflexivity.
  - apply freeb_free. vm_compute. reflexivity.
  - vm_compute. reflexivity.
  - vm_compute. reflexivity.
Defined.

(** The two orders on the example, side by side. *)
Lemma prefixVars_both_orders n :
  withResolvedArgs (2 + n) rangeForwards [] "$FOOBAR"
    (configWith prefixVars false false) = Some "2"
  ∧ withResolvedArgs (2 + n) rangeBackwards [] "$FOOBAR"
      (configWith prefixVars false false) = Some "1BAR".
Proof.
  split.
  - apply (withResolvedArgs_mono_le 2); [lia|by vm_compute].
  - apply (withResolvedArgs_mono_le 2); [lia|by vm_compute].
Qed.

(** ** Termination, by the calls that are made *)

Lemma loops_app m before rest s t r :
  loops m before s t → loops m rest t r → loops m (before ++ rest) s r.
Proof.
  induction 1 as [t|k v rest' t r0 Hc _ IH|k v rest' t r' r0 kvs Hc HP Hn _ _ IH];
    intros H; cbn.
  - done.
  - apply loops_skip; [done|]. by apply IH.
  - eapply loops_call; eauto.
Qed.

Lemma loops_snoc_skip m before k v s t :
  loops m before s t → strings.Contains t (token k) = false →
  loops m (before ++ [(k, v)]) s t.
Proof.
  intros H Hc. eapply loops_app; [exact H|]. apply loops_skip; [done|constructor].
Qed.

Lemma loops_snoc_call m before k v s t r' kvs :
  loops m before s t → strings.Contains t (token k) = true →
  kvs ≡ₚ map_to_list m → loops m kvs v r' →
  loops m (before ++ [(k, v)]) s (strings.ReplaceAll t (token k) r').
Proof.
  intros H Hc HP Hn. eapply loops_app; [exact H|].
  eapply loops_call; eauto. constructor.
Qed.

(** What a call returns, the loop leaves. *)
Lemma resolveEntries_loops m recur i kvs t r :
  (∀ j v r', recur j v = Some r' →
     ∃ kvs', kvs' ≡ₚ map_to_list m ∧ loops m kvs' v r') →
  resolveEntries recur i kvs t = Some r → loops m kvs t r.
Proof.
  intros Hrec. revert i t. induction kvs as [|[k v] kvs IH]; intros i t; cbn.
  { intros [= <-]. constructor. }
  fold (token k). destruct (strings.Contains t (token k)) eqn:Hc.
  - destruct (recur i v) as [r'|] eqn:E; [|done]. intros H.
    destruct (Hrec _ _ _ E) as (kvs' & HP & Hn).
    eapply loops_call; eauto.
  - intros H. apply loops_skip; [done|]. by eapply IH.
Qed.

Lemma withResolvedArgs_loops fuel range path s c r :
  lawful range →
  withResolvedArgs fuel range path s c = Some r →
  loops (argReplacements c) (range path (argReplacements c)) s r.
Proof.
  intros L. revert path s r. induction fuel as [|n IH]; intros path s r; [done|].
  rewrite withResolvedArgs_S. apply resolveEntries_loops.
  intros j v r' H. eexists. split; [apply (L (j :: path))|]. by apply IH.
Qed.

Lemma calls_finite m k : pred_finite (tc (calls m) k).
Proof.
  exists (map_to_list m).*1. intros j Hj.
  assert (∃ vj, (j, vj) ∈ map_to_list m) as [vj Hin].
  { induction Hj as [x y (_ & before & vj & after & _ & _ & HP & _)|]; [|done].
    exists vj. rewrite <-HP. apply elem_of_app. right. left. }
  apply list_elem_of_fmap. by exists (j, vj).
Qed.

(** The loop ends when every call it makes ends. *)
Lemma resolveEntries_ends_calls range c s0 all :
  lawful range →
  (∀ before j vj after t path,
     all = before ++ (j, vj) :: after →
     loops (argReplacements c) before s0 t →
     strings.Contains t (token j) = true →
     ∃ fuel r, withResolvedArgs fuel range path vj c = Some r) →
  ∀ rest before t i path,
    all = before ++ rest →
    loops (argReplacements c) before s0 t →
    ∃ fuel r,
      resolveEntries (λ i v, withResolvedArgs fuel range (i :: path) v c)
        i rest t = Some r.
Proof.
  intros L Hcalls rest.
  induction rest as [|[j vj] rest IH]; intros before t i path Hall Ht.
  { by exists 0, t. }
  assert (all = (before ++ [(j, vj)]) ++ rest) as Hall'
    by by rewrite <-app_assoc.
  cbn [resolveEntries]. fold (token j).
  destruct (strings.Contains t (token j)) eqn:Hc.
  - destruct (Hcalls before j vj rest t (i :: path) Hall Ht Hc)
      as (fuel1 & r1 & Hr1).
    destruct (IH (before ++ [(j, vj)]) (strings.ReplaceAll t (token j) r1)
                (S i) path Hall') as (fuel2 & r & Hr).
    { eapply loops_snoc_call; [done..| |].
      - apply (L (i :: path)).
      - by eapply withResolvedArgs_loops. }
    exists (fuel1 `max` fuel2), r.
    rewrite (withResolvedArgs_mono_le fuel1 _ _ _ _ _ _ (Nat.le_max_l _ _) Hr1).
    eapply resolveEntries_mono; [|exact Hr].
    intros i' v' r'. apply withResolvedArgs_mono_le, Nat.le_max_r.
  - apply (IH (before ++ [(j, vj)])); [done|]. by apply loops_snoc_skip.
Qed.

(** The value of a variable resolves when the calls made for it lead to
    no cycle. *)
Lemma value_resolves_calls range c k v :
  lawful range →
  sn (calls (argReplacements c)) k →
  argReplacements c !! k = Some v →
  ∀ path, ∃ fuel r, withResolvedArgs fuel range path v c = Some r.
Proof.
  intros L Hsn. revert v. induction Hsn as [k _ IH]; intros v Hk path.
  destruct (resolveEntries_ends_calls range c v
              (range path (argReplacements c)) L) with
    (rest := range path (argReplacements c)) (before := @nil (string * string))
    (t := v) (i := 0) (path := path) as (fuel & r & Hr).
  - intros before j vj after t p Hall Ht Hc.
    assert (before ++ (j, vj) :: after ≡ₚ map_to_list (argReplacements c))
      as HP by (rewrite <-Hall; apply L).
    apply (IH j).
    + exists v, before, vj, after, t. by repeat split.
    + apply elem_of_map_to_list. rewrite <-HP. apply elem_of_app. right. left.
  - done.
  - constructor.
  - exists (S fuel), r. by rewrite withResolvedArgs_S.
Qed.

(** [C6], amended.  For every variable map in which no call on the value
    of a variable leads to a call on the value of the same variable,
    resolution is total: on every input string, and whatever order the map
    is ranged over, it ends and returns a string.  A call on the value of
    [K] makes a call on the value of [J] when, in some order, the loop over
    the value of [K] reaches [J] with the token of [J] in the text, the
    tokens of the keys before [J] replaced by what their calls returned. *)
Theorem resolve_total_when_no_call_cycle
    (range : ranging) (path : list nat) (c : Config) (s : string) :
  lawful range →
  no_call_cycle (argReplacements c) →
  ∃ fuel r, ∀ n, withResolvedArgs (fuel + n) range path s c = Some r.
Proof.
  intros L Hfree.
  destruct (resolveEntries_ends_calls range c s
              (range path (argReplacements c)) L) with
    (rest := range path (argReplacements c)) (before := @nil (string * string))
    (t := s) (i := 0) (path := path) as (fuel & r & Hr).
  - intros before j vj after t p Hall _ _.
    apply (value_resolves_calls range c j); [done| |].
    + apply tc_finite_sn; [exact Hfree|apply calls_finite].
    + apply elem_of_map_to_list. rewrite <-(L path), Hall.
      apply elem_of_app. right. left.
  - done.
  - constructor.
  - exists (S fuel), r. intros n.
    apply (withResolvedArgs_mono_le (S fuel)); [lia|].
    by rewrite withResolvedArgs_S.
Qed.

(** *** The three conditions compared *)

Lemma reach_trans m s t r : reach m s t → reach m t r → reach m s r.
Proof.
  intros Hs H. revert s Hs.
  induction H as [t|t t' j v r' _ IH Hj Hc Hn _]; intros s Hs; [done|].
  eapply reach_replace; eauto.
Qed.

Lemma loops_reach m kvs t r :
  (∀ k v, (k, v) ∈ kvs → m !! k = Some v) →
  loops m kvs t r → reach m t r.
Proof.
  intros Hin H.
  induction H as [t|k v rest t r Hc _ IH|k v rest t r' r kvs Hc HP _ IHn _ IH].
  - constructor.
  - apply IH. intros k' v' ?. apply Hin. by right.
  - apply reach_trans with (strings.ReplaceAll t (token k) r').
    + eapply reach_replace; [constructor|apply Hin; left|done|].
      apply IHn. intros k' v' H'. rewrite HP in H'.
      by apply elem_of_map_to_list.
    + apply IH. intros k' v' ?. apply Hin. by right.
Qed.

Lemma calls_arises m k j : calls m k j → arises m k j.
Proof.
  intros (v & before & vj & after & t & Hk & HP & Hl & Hc).
  exists v, t. repeat split; [done| | |done].
  - eapply loops_reach; [|exact Hl]. intros k' v' H'.
    apply elem_of_map_to_list. rewrite <-HP. apply elem_of_app. by left.
  - exists vj. apply elem_of_map_to_list. rewrite <-HP.
    apply elem_of_app. right. left.
Qed.

Lemma references_calls m k j : references m k j → calls m k j.
Proof.
  intros (v & Hk & [vj Hj] & Hc).
  apply elem_of_map_to_list, list_elem_of_split in Hj as (l1 & l2 & Hj).
  exists v, [], vj, (l1 ++ l2), v. repeat split; [done| |constructor|done].
  rewrite Hj. cbn. apply Permutation_middle.
Qed.

Lemma tc_subrelation {A} (R S : relation A) x y :
  (∀ a b, R a b → S a b) → tc R x y → tc S x y.
Proof.
  intros HRS H. induction H as [x y H|x y z H _ IH].
  - by apply tc_once, HRS.
  - eapply tc_l; [by apply HRS|done].
Qed.

(** A map without cycles among the texts that can be made from its
    values has no call cycle, and a map without call cycle has no cycle
    among the references read off its values. *)
Lemma cycle_free_no_call_cycle m : cycle_free m → no_call_cycle m.
Proof.
  intros H k Hk. apply (H k). eapply tc_subrelation; [|exact Hk].
  apply calls_arises.
Qed.

Lemma no_call_cycle_acyclic m : no_call_cycle m → acyclic m.
Proof.
  intros H k Hk. apply (H k). eapply tc_subrelation; [|exact Hk].
  apply references_calls.
Qed.

(** A loop over entries whose tokens are not in the text leaves it. *)
Lemma loops_free m kvs t r :
  (∀ k v, (k, v) ∈ kvs → strings.Contains t (token k) = false) →
  loops m kvs t r → r = t.
Proof.
  intros F H. induction H as [t|k v rest t r Hc _ IH|k v rest t r' r kvs Hc _ _ _ _ _].
  - done.
  - apply IH. intros k' v' ?. apply (F k' v'). by right.
  - rewrite (F k v) in Hc; [done|left].
Qed.

(** The example with two dollar signs: its entries, in any order. *)
Lemma dollarVars_elem_of k v :
  (k, v) ∈ map_to_list dollarVars →
  (k = "K" ∧ v = "$P$PPK") ∨ (k = "P" ∧ v = "$").
Proof.
  intros H%elem_of_map_to_list. unfold dollarVars in H.
  apply lookup_insert_Some in H as [[<- <-]|[_ H]]; [by left|].
  apply lookup_singleton_Some in H as [<- <-]. by right.
Qed.

Lemma dollarVars_before before j vj after :
  before ++ (j, vj) :: after ≡ₚ map_to_list dollarVars →
  before = [] ∨ ∃ k v, before = [(k, v)] ∧ k ≠ j ∧ (k, v) ∈ map_to_list dollarVars.
Proof.
  intros HP.
  assert (NoDup (before ++ (j, vj) :: after).*1) as ND
    by (rewrite HP; apply NoDup_fst_map_to_list).
  assert (length (before ++ (j, vj) :: after) = 2) as Hlen
    by (rewrite HP; by vm_compute).
  destruct before as [|[k v] [|y before]]; [by left| |].
  - right. exists k, v. repeat split.
    + intros ->. cbn in ND. apply NoDup_cons in ND as [Hnin _].
      apply Hnin. left.
    + rewrite <-HP. left.
  - rewrite length_app in Hlen. cbn in Hlen. lia.
Qed.

Lemma dollarVars_nested kvs r :
  kvs ≡ₚ map_to_list dollarVars → loops dollarVars kvs "$" r → r = "$".
Proof.
  intros HP. apply loops_free. intros k v Hin. rewrite HP in Hin.
  by apply dollarVars_elem_of in Hin as [[-> _]|[-> _]].
Qed.

Lemma dollarVars_calls k j : calls dollarVars k j → k = "K" ∧ j = "P".
Proof.
  intros (v & before & vj & after & t & Hk & HP & Hl & Hc).
  assert ((j, vj) ∈ map_to_list dollarVars) as Hj
    by (rewrite <-HP; apply elem_of_app; right; left).
  assert ((k, v) ∈ map_to_list dollarVars) as Hk'
    by by apply elem_of_map_to_list.
  clear Hk. apply dollarVars_elem_of in Hk' as Hk.
  apply dollarVars_before in HP as [->|(k' & v' & -> & Hne & Hin)].
  - inversion Hl; subst.
    destruct Hk as [[-> ->]|[-> ->]];
      apply dollarVars_elem_of in Hj as [[-> ->]|[-> ->]];
      by vm_compute in Hc.
  - apply dollarVars_elem_of in Hin.
    destruct Hk as [[-> ->]|[-> ->]].
    + destruct Hin as [[-> ->]|[-> ->]];
        apply dollarVars_elem_of in Hj as [[-> ->]|[-> ->]]; try done.
      inversion Hl as [|? ? ? ? ? Hc' Hl'|? ? ? ? r' ? kvs Hc' HP' Hn Hl']; subst.
      { by vm_compute in Hc'. }
      apply dollarVars_nested in Hn as ->; [|done].
      inversion Hl'; subst. by vm_compute in Hc.
    + apply loops_free in Hl as ->.
      * apply dollarVars_elem_of in Hj as [[-> ->]|[-> ->]]; by vm_compute in Hc.
      * intros k0 v0 [= -> ->]%list_elem_of_singleton.
        by destruct Hin as [[-> ->]|[-> ->]].
Qed.

Lemma dollarVars_no_call_cycle : no_call_cycle dollarVars.
Proof.
  intros k H. inversion H as [x y R|x y z R T]; subst.
  - by apply dollarVars_calls in R as [-> ?].
  - apply dollarVars_calls in R as [-> ->].
    inversion T as [x y R|x y z R T']; subst;
      by apply dollarVars_calls in R as [? _].
Qed.

(** Yet a text with the token of [K] can be made from the value of [K]
    by replacing the token of [P] twice, which no loop does. *)
Lemma dollarVars_not_cycle_free : ¬ cycle_free dollarVars.
Proof.
  intros H. apply (H "K"). apply tc_once.
  exists "$P$PPK", (strings.ReplaceAll
                      (strings.ReplaceAll "$P$PPK" (token "P") "$")
                      (token "P") "$").
  split; [done|]. split; [|split; [by eexists|by vm_compute]].
  eapply reach_replace; [|done|by vm_compute|constructor].
  eapply reach_replace; [constructor|done|by vm_compute|constructor].
Qed.

Lemma dollarVars_resolve :
  withResolvedArgs 3 rangeForwards [] "run $K" (configWith dollarVars false false)
  = Some "run $$K"
  ∧ withResolvedArgs 3 rangeBackwards [] "run $K"
      (configWith dollarVars false false)
    = Some "run $$PK".
Proof. by vm_compute. Qed.

(** Resolving against the example with two dollar signs. *)
Lemma resolve_total_call_witness :
  ∃ fuel r, ∀ n,
    withResolvedArgs (fuel + n) rangeBackwards [] "run $K"
      (configWith dollarVars false false) = Some r.
Proof.
  apply (resolve_total_when_no_call_cycle rangeBackwards []
           (configWith dollarVars false false) "run $K").
  - intros path m. apply reverse_Permutation.
  - apply dollarVars_no_call_cycle.
Defined.

(** *** Values with the token of one key *)

(** A loop from a text with the token of one key [k0] only, which is
    gone once the result [r0] of the call on the value of [k0] stands in
    its place: the text is left when the loop does not meet [k0], and
    becomes [t1] when it does. *)
Lemma loops_one m kvs t r k0 v0 r0 :
  (∀ k v, (k, v) ∈ kvs → m !! k = Some v) →
  m !! k0 = Some v0 →
  strings.Contains t (token k0) = true →
  (∀ k, is_Some (m !! k) → strings.Contains t (token k) = true → k = k0) →
  free m (strings.ReplaceAll t (token k0) r0) →
  (∀ kvs' r', kvs' ≡ₚ map_to_list m → loops m kvs' v0 r' → r' = r0) →
  loops m kvs t r →
  (k0 ∈ kvs.*1 → r = strings.ReplaceAll t (token k0) r0)
  ∧ (k0 ∉ kvs.*1 → r = t).
Proof.
  intros Hin Hk0 Hc0 Hone Hfree Hnest H.
  induction H as [t|k v rest t r Hc _ IH|k v rest t r' r kvs' Hc HP Hn _ Hl _].
  - split; [by intros ?%elem_of_nil|done].
  - assert (k ≠ k0) as Hne by (intros ->; congruence).
    destruct IH as [IH1 IH2]; try done.
    { intros k' v' ?. apply Hin. by right. }
    split.
    + cbn. intros [?|?]%elem_of_cons; [done|by apply IH1].
    + intros Hnin. apply IH2. intros ?. apply Hnin. cbn. by right.
  - assert (k = k0) as -> by (apply Hone; [|done]; exists v; apply Hin; left).
    assert (v = v0) as ->.
    { specialize (Hin k0 v). rewrite Hk0 in Hin.
      symmetry. eapply (inj Some), Hin. left. }
    apply Hnest in Hn as ->; [|done].
    split.
    + intros _. eapply loops_free; [|exact Hl].
      intros k' v' H'. apply Hfree. exists v'. apply Hin. by right.
    + intros Hnin. destruct Hnin. cbn. left.
Qed.

(** So the loop over all entries returns [t1]. *)
Lemma loops_one_all m kvs v r k0 v0 r0 :
  kvs ≡ₚ map_to_list m →
  m !! k0 = Some v0 →
  strings.Contains v (token k0) = true →
  (∀ k, is_Some (m !! k) → strings.Contains v (token k) = true → k = k0) →
  free m (strings.ReplaceAll v (token k0) r0) →
  (∀ kvs' r', kvs' ≡ₚ map_to_list m → loops m kvs' v0 r' → r' = r0) →
  loops m kvs v r →
  r = strings.ReplaceAll v (token k0) r0.
Proof.
  intros HP Hk0 Hc0 Hone Hfree Hnest H.
  eapply loops_one in H as [H _]; try done.
  - apply H. apply list_elem_of_fmap. exists (k0, v0). split; [done|].
    rewrite HP. by apply elem_of_map_to_list.
  - intros k' v' H'. rewrite HP in H'. by apply elem_of_map_to_list.
Qed.

(** And the call on such a value makes calls on the value of [k0]
    only. *)
Lemma calls_one m k v j k0 v0 r0 :
  m !! k = Some v →
  m !! k0 = Some v0 →
  strings.Contains v (token k0) = true →
  (∀ k, is_Some (m !! k) → strings.Contains v (token k) = true → k = k0) →
  free m (strings.ReplaceAll v (token k0) r0) →
  (∀ kvs' r', kvs' ≡ₚ map_to_list m → loops m kvs' v0 r' → r' = r0) →
  calls m k j → j = k0.
Proof.
  intros Hk Hk0 Hc0 Hone Hfree Hnest
    (v' & before & vj & after & t & Hk' & HP & Hl & Hc).
  rewrite Hk in Hk'. injection Hk' as <-.
  assert (is_Some (m !! j)) as Hj.
  { exists vj. apply elem_of_map_to_list. rewrite <-HP.
    apply elem_of_app. right. left. }
  eapply loops_one in Hl as [H1 H2]; try done.
  - destruct (decide (k0 ∈ before.*1)) as [Hin|Hnin].
    + rewrite (H1 Hin), (Hfree j Hj) in Hc. done.
    + rewrite (H2 Hnin) in Hc. by apply Hone.
  - intros k' v' H'. apply elem_of_map_to_list. rewrite <-HP.
    apply elem_of_app. by left.
Qed.

(** The call on a value without tokens makes no call. *)
Lemma calls_free m k v j : m !! k = Some v → free m v → ¬ calls m k j.
Proof.
  intros Hk Hfree (v' & before & vj & after & t & Hk' & HP & Hl & Hc).
  rewrite Hk in Hk'. injection Hk' as <-.
  apply loops_free in Hl as ->.
  - rewrite Hfree in Hc; [done|]. exists vj. apply elem_of_map_to_list.
    rewrite <-HP. apply elem_of_app. right. left.
  - intros k' v' H'. apply Hfree. exists v'. apply elem_of_map_to_list.
    rewrite <-HP. apply elem_of_app. by left.
Qed.

(** A measure that every call lowers excludes call cycles. *)
Lemma ranked_no_call_cycle m (rank : string → nat) :
  (∀ k j, calls m k j → rank j < rank k) → no_call_cycle m.
Proof.
  intros Hr k Hk.
  assert (∀ x y, tc (calls m) x y → rank y < rank x) as Htc.
  { intros x y H. induction H as [x y H|x y z H _ IH].
    - by apply Hr.
    - apply Hr in H. lia. }
  apply Htc in Hk. lia.
Qed.

(** *** The chain of four variables *)

Lemma nestedVars_lookup k v :
  nestedVars !! k = Some v →
  (k = "DIR" ∧ v = "$ROOTS") ∨ (k = "ROOT" ∧ v = "$BASE")
  ∨ (k = "BASE" ∧ v = "/x") ∨ (k = "BASES" ∧ v = "$DIR/y").
Proof.
  unfold nestedVars. intros H.
  apply lookup_insert_Some in H as [[<- <-]|[_ H]]; [by left|].
  apply lookup_insert_Some in H as [[<- <-]|[_ H]]; [by right; left|].
  apply lookup_insert_Some in H as [[<- <-]|[_ H]]; [by right; right; left|].
  apply lookup_singleton_Some in H as [<- <-]. by right; right; right.
Qed.

Ltac nested_key H :=
  let v := fresh "v" in
  destruct H as [v H];
  apply nestedVars_lookup in H
    as [[-> ->]|[[-> ->]|[[-> ->]|[-> ->]]]].

Lemma nestedVars_BASE kvs r :
  kvs ≡ₚ map_to_list nestedVars → loops nestedVars kvs "/x" r → r = "/x".
Proof.
  intros HP. apply loops_free. intros k v Hin. rewrite HP in Hin.
  apply elem_of_map_to_list in Hin.
  assert (is_Some (nestedVars !! k)) as H by by eexists.
  by nested_key H.
Qed.

Lemma nestedVars_ROOT kvs r :
  kvs ≡ₚ map_to_list nestedVars → loops nestedVars kvs "$BASE" r → r = "/x".
Proof.
  intros HP H.
  eapply (loops_one_all _ _ _ _ "BASE" "/x" "/x") in H; try done.
  - intros k Hk Hc. nested_key Hk; by vm_compute in Hc.
  - apply nestedVars_BASE.
Qed.

Lemma nestedVars_DIR kvs r :
  kvs ≡ₚ map_to_list nestedVars → loops nestedVars kvs "$ROOTS" r → r = "/xS".
Proof.
  intros HP H.
  eapply (loops_one_all _ _ _ _ "ROOT" "$BASE" "/x") in H; try done.
  - intros k Hk Hc. nested_key Hk; by vm_compute in Hc.
  - apply nestedVars_ROOT.
Qed.

(** The calls of the chain: each on the next variable of the chain, none
    from [DIR] on [BASES]. *)
Lemma nestedVars_calls k j :
  calls nestedVars k j →
  (k = "BASES" ∧ j = "DIR") ∨ (k = "DIR" ∧ j = "ROOT")
  ∨ (k = "ROOT" ∧ j = "BASE").
Proof.
  intros H.
  assert (is_Some (nestedVars !! k)) as Hk.
  { destruct H as (v & _ & _ & _ & _ & ? & _). by eexists. }
  nested_key Hk.
  - right; left. split; [done|].
    eapply (calls_one _ _ "$ROOTS" _ "ROOT" "$BASE" "/x") in H; try done.
    + intros k Hk Hc. nested_key Hk; by vm_compute in Hc.
    + apply nestedVars_ROOT.
  - right; right. split; [done|].
    eapply (calls_one _ _ "$BASE" _ "BASE" "/x" "/x") in H; try done.
    + intros k Hk Hc. nested_key Hk; by vm_compute in Hc.
    + apply nestedVars_BASE.
  - exfalso. eapply (calls_free _ _ "/x"); [| |exact H]; [done|].
    intros k Hk. by nested_key Hk.
  - left. split; [done|].
    eapply (calls_one _ _ "$DIR/y" _ "DIR" "$ROOTS" "/xS") in H; try done.
    + intros k Hk Hc. nested_key Hk; by vm_compute in Hc.
    + apply nestedVars_DIR.
Qed.

Lemma nestedVars_no_call_cycle : no_call_cycle nestedVars.
Proof.
  apply (ranked_no_call_cycle _
           (λ k, if decide (k = "BASES") then 3
                 else if decide (k = "DIR") then 2
                 else if decide (k = "ROOT") then 1 else 0)).
  intros k j [[-> ->]|[[-> ->]|[-> ->]]]%nestedVars_calls; vm_compute; lia.
Qed.

(** Replacing the token of [ROOT] in the value of [DIR] by the value of
    [ROOT], not by what the call on it returns, would make the token of
    [BASES]: the chain is not [cycle_free]. *)
Lemma nestedVars_not_cycle_free : ¬ cycle_free nestedVars.
Proof.
  intros H. apply (H "DIR").
  apply tc_l with "BASES"; [|apply tc_once].
  - exists "$ROOTS", (strings.ReplaceAll "$ROOTS" (token "ROOT") "$BASE").
    split; [done|]. split; [|split; [by eexists|by vm_compute]].
    eapply reach_replace; [constructor|done|by vm_compute|constructor].
  - exists "$DIR/y", "$DIR/y".
    split; [done|]. split; [constructor|]. split; [by eexists|by vm_compute].
Qed.

(** The chain resolved, in two orders: forwards the loop meets [BASES]
    before [BASE], backwards [BASE] first, whose token stands at the head
    of the token of [BASES]. *)
Lemma nestedVars_resolve n :
  lawful rangeForwards ∧ lawful rangeBackwards
  ∧ withResolvedArgs (5 + n) rangeForwards [] "ls $BASES"
      (configWith nestedVars false false) = Some "ls /xS/y"
  ∧ withResolvedArgs (5 + n) rangeBackwards [] "ls $BASES"
      (configWith nestedVars false false) = Some "ls /xS".
Proof.
  split; [apply rangeForwards_lawful|]. split; [apply rangeBackwards_lawful|].
  split; (apply (withResolvedArgs_mono_le 5); [lia|by vm_compute]).
Qed.
